(** * FixedHashTable: a fixed-capacity string -> int table with linear
    probing, tombstones and an intrusive recency list.

    Shallow embedding of [src/ex1/fixed_hash_table.py].  The Python object
    is a record of parallel lists; every method is a computation in a small
    state-and-exception monad over that record, so that a raised exception
    keeps whatever the method had already written. *)

From Stdlib Require Import ZArith Lia Ascii.
From stdpp Require Import base list strings.

Local Open Scope Z_scope.
Local Open Scope nat_scope.

(** ** Data model *)

(** The three class constants [EMPTY = 0], [OCCUPIED = 1], [DELETED = 2]. *)
Inductive slot_state := EMPTY | OCCUPIED | DELETED.

#[global] Instance slot_state_eq_dec : EqDecision slot_state.
Proof. solve_decision. Defined.

(** The [__slots__] of the class.  Slot indices are non-negative Python
    integers and are kept as [nat]; [size] is a Python integer that the code
    increments and decrements, kept as [Z]. *)
Record FixedHashTable := mkTable {
  capacity : nat;
  keys : list (option string);
  vals : list (option Z);
  state : list slot_state;
  prev : list (option nat);
  next : list (option nat);
  head : option nat;
  tail : option nat;
  size : Z
}.

(** The exceptions the module can raise.  [KeyError] carries its argument:
    the missing key for [get]/[remove], the literal "empty" for
    [get_last]/[get_first]. *)
Inductive exn :=
| ValueError
| ZeroDivisionError
| IndexError
| KeyError (arg : string)
| RuntimeError.

(** What a call does: return, raise, or still be inside the [while True]
    loop when the iteration budget of the model is used up. *)
Inductive outcome (A : Type) :=
| Ok (a : A)
| Raise (e : exn)
| Diverge.
Arguments Ok {A} a.
Arguments Raise {A} e.
Arguments Diverge {A}.

(** ** The monad of methods *)

Definition M (A : Type) : Type := FixedHashTable -> outcome A * FixedHashTable.

Definition ret {A} (a : A) : M A := fun t => (Ok a, t).

Definition bind {A B} (m : M A) (k : A -> M B) : M B :=
  fun t =>
    match m t with
    | (Ok a, t') => k a t'
    | (Raise e, t') => (Raise e, t')
    | (Diverge, t') => (Diverge, t')
    end.

Definition raise {A} (e : exn) : M A := fun t => (Raise e, t).

Definition diverge {A} : M A := fun t => (Diverge, t).

Definition gets {A} (f : FixedHashTable -> A) : M A := fun t => (Ok (f t), t).

Notation "x <~ m ; k" := (bind m (fun x => k))
  (at level 20, m at level 100, k at level 200).
Notation "m ;> k" := (bind m (fun _ => k))
  (at level 100, k at level 200, right associativity).

(** Field updates ([self.f = ...]). *)
Definition with_keys (f : list (option string) -> list (option string)) t :=
  mkTable (capacity t) (f (keys t)) (vals t) (state t) (prev t) (next t)
          (head t) (tail t) (size t).
Definition with_vals (f : list (option Z) -> list (option Z)) t :=
  mkTable (capacity t) (keys t) (f (vals t)) (state t) (prev t) (next t)
          (head t) (tail t) (size t).
Definition with_state (f : list slot_state -> list slot_state) t :=
  mkTable (capacity t) (keys t) (vals t) (f (state t)) (prev t) (next t)
          (head t) (tail t) (size t).
Definition with_prev (f : list (option nat) -> list (option nat)) t :=
  mkTable (capacity t) (keys t) (vals t) (state t) (f (prev t)) (next t)
          (head t) (tail t) (size t).
Definition with_next (f : list (option nat) -> list (option nat)) t :=
  mkTable (capacity t) (keys t) (vals t) (state t) (prev t) (f (next t))
          (head t) (tail t) (size t).
Definition with_head (h : option nat) t :=
  mkTable (capacity t) (keys t) (vals t) (state t) (prev t) (next t)
          h (tail t) (size t).
Definition with_tail (h : option nat) t :=
  mkTable (capacity t) (keys t) (vals t) (state t) (prev t) (next t)
          (head t) h (size t).
Definition with_size (f : Z -> Z) t :=
  mkTable (capacity t) (keys t) (vals t) (state t) (prev t) (next t)
          (head t) (tail t) (f (size t)).

(** [self.f[i]]: a Python list read raises [IndexError] out of range. *)
Definition load {A} (f : FixedHashTable -> list A) (i : nat) : M A :=
  fun t =>
    match f t !! i with
    | Some x => (Ok x, t)
    | None => (Raise IndexError, t)
    end.

(** [self.f[i] = x]: a Python list write raises [IndexError] out of range
    (stdpp's list insert would silently do nothing there). *)
Definition store {A} (f : FixedHashTable -> list A)
    (upd : (list A -> list A) -> FixedHashTable -> FixedHashTable)
    (i : nat) (x : A) : M unit :=
  fun t =>
    if decide (i < length (f t)) then (Ok tt, upd (fun l => <[i:=x]> l) t)
    else (Raise IndexError, t).

Definition set_head (h : option nat) : M unit := fun t => (Ok tt, with_head h t).
Definition set_tail (h : option nat) : M unit := fun t => (Ok tt, with_tail h t).

(** ** The class *)

(** [__init__]: the only way a table comes into being. *)
Definition __init__ (capacity : Z) : outcome FixedHashTable :=
  if decide (capacity <= 0)%Z then Raise ValueError
  else
    let c := Z.to_nat capacity in
    Ok (mkTable c (replicate c None) (replicate c None) (replicate c EMPTY)
                (replicate c None) (replicate c None) None None 0%Z).

(** What a call of the driver does.  Besides the exceptions of the table
    it can raise the [TypeError] of [c + 1] when [get] hands back [None]. *)
Inductive run_outcome (A : Type) :=
| Returned (a : A)
| Raised (e : exn)
| RaisedTypeError
| Hung.
Arguments Returned {A} a.
Arguments Raised {A} e.
Arguments RaisedTypeError {A}.
Arguments Hung {A}.

(** Python's built-in [hash] on strings.  It is salted per run, so it is
    kept abstract: any function from strings to the integers. *)
Class StringHash := hash : string -> Z.

Section FixedHashTable.

Context {salted : StringHash}.

(** [(hash(key) & 0x7FFFFFFF) % self.capacity] *)
Definition _idx (key : string) : M nat :=
  fun t =>
    if decide (capacity t = 0) then (Raise ZeroDivisionError, t)
    else (Ok (Z.to_nat (Z.land (hash key) 0x7FFFFFFF `mod` Z.of_nat (capacity t))), t).

(** The [while True] loop of [_probe], one unit of [fuel] per iteration.
    [seen] is a ghost output, not in the source: the indices [i] whose
    [self.state[i]] the loop has read, in order. *)
Fixpoint probe_loop (fuel : nat) (key : string) (start i : nat)
    (first_tombstone : option nat) (seen : list nat)
    : M (list nat * (option nat * option nat)) :=
  match fuel with
  | 0 => diverge
  | S fuel =>
    let seen := seen ++ [i] in
    let advance (first_tombstone : option nat) :=
      cap <~ gets capacity;
      let i := i + 1 in
      let i := if decide (i = cap) then 0 else i in
      if decide (i = start) then ret (seen, (None, first_tombstone))
      else probe_loop fuel key start i first_tombstone seen in
    st <~ load state i;
    match st with
    | EMPTY =>
      ret (seen, (None, Some (default i first_tombstone)))
    | OCCUPIED =>
      k <~ load keys i;
      if decide (k = Some key) then ret (seen, (Some i, None))
      else advance first_tombstone
    | DELETED =>
      advance (Some (default i first_tombstone))
    end
  end.

Definition probe_fuel (fuel : nat) (key : string)
    : M (list nat * (option nat * option nat)) :=
  start <~ _idx key;
  probe_loop fuel key start start None [].

(** [_probe] with its ghost trace; [capacity] iterations are all the loop
    can take (lemma [probe_fuel_enough]). *)
Definition probe_traced (key : string) : M (list nat * (option nat * option nat)) :=
  cap <~ gets capacity;
  probe_fuel cap key.

Definition _probe (key : string) : M (option nat * option nat) :=
  r <~ probe_traced key;
  ret (snd r).

(** *** Recency helpers *)

Definition _link_to_head (i : nat) : M unit :=
  store prev with_prev i None ;>
  h <~ gets head;
  store next with_next i h ;>
  h <~ gets head;
  match h with
  | Some h => store prev with_prev h (Some i)
  | None => ret tt
  end ;>
  set_head (Some i) ;>
  tl <~ gets tail;
  match tl with
  | None => set_tail (Some i)
  | Some _ => ret tt
  end.

Definition _unlink (i : nat) : M unit :=
  p <~ load prev i;
  n <~ load next i;
  match p with
  | Some p' => store next with_next p' n
  | None => set_head n
  end ;>
  match n with
  | Some n' => store prev with_prev n' p
  | None => set_tail p
  end ;>
  store prev with_prev i None ;>
  store next with_next i None.

Definition _move_to_head (i : nat) : M unit :=
  h <~ gets head;
  if decide (Some i = h) then ret tt
  else _unlink i ;> _link_to_head i.

(** *** Public API *)

Definition insert (key : string) (value : Z) : M unit :=
  r <~ _probe key;
  match r with
  | (Some found_idx, _) =>
    store vals with_vals found_idx (Some value) ;>
    _move_to_head found_idx
  | (None, None) => raise RuntimeError
  | (None, Some insert_idx) =>
    store keys with_keys insert_idx (Some key) ;>
    store vals with_vals insert_idx (Some value) ;>
    store state with_state insert_idx OCCUPIED ;>
    _link_to_head insert_idx ;>
    fun t => (Ok tt, with_size (fun n => n + 1)%Z t)
  end.

Definition get (key : string) : M (option Z) :=
  r <~ _probe key;
  match fst r with
  | None => raise (KeyError key)
  | Some found_idx => load vals found_idx
  end.

Definition remove (key : string) : M unit :=
  r <~ _probe key;
  match fst r with
  | None => raise (KeyError key)
  | Some found_idx =>
    _unlink found_idx ;>
    store keys with_keys found_idx None ;>
    store vals with_vals found_idx None ;>
    store state with_state found_idx DELETED ;>
    fun t => (Ok tt, with_size (fun n => n - 1)%Z t)
  end.

Definition get_last : M (option string * option Z) :=
  h <~ gets head;
  match h with
  | None => raise (KeyError "empty")
  | Some i =>
    k <~ load keys i;
    v <~ load vals i;
    ret (k, v)
  end.

Definition get_first : M (option string * option Z) :=
  h <~ gets tail;
  match h with
  | None => raise (KeyError "empty")
  | Some i =>
    k <~ load keys i;
    v <~ load vals i;
    ret (k, v)
  end.

(** The generator [items], run to exhaustion: the loop body for the indices
    still to come. *)
Fixpoint items_from (l : list nat) : M (list (option string * option Z)) :=
  match l with
  | [] => ret []
  | i :: l =>
    st <~ load state i;
    if decide (st = OCCUPIED) then
      k <~ load keys i;
      v <~ load vals i;
      rest <~ items_from l;
      ret ((k, v) :: rest)
    else items_from l
  end.

Definition items : M (list (option string * option Z)) :=
  cap <~ gets capacity;
  items_from (seq 0 cap).

(** ** Specification-level vocabulary *)

(** [hash(key) mod capacity], the slot a probe for [key] starts at. *)
Definition start_of (t : FixedHashTable) (key : string) : nat :=
  Z.to_nat (Z.land (hash key) 0x7FFFFFFF `mod` Z.of_nat (capacity t)).

(** The probe sequence of the specification: from the start slot, advancing
    by +1 mod capacity, once around the table. *)
Definition probe_path (t : FixedHashTable) (key : string) : list nat :=
  (fun j => (start_of t key + j) mod capacity t) <$> seq 0 (capacity t).

(** The loop body of [_probe] run along a given list of slots instead of
    an advancing index; [probe_loop_scan] relates the two. *)
Fixpoint scan (t : FixedHashTable) (key : string) (l : list nat)
    (first_tombstone : option nat) (seen : list nat)
    : outcome (list nat * (option nat * option nat)) :=
  match l with
  | [] => Ok (seen, (None, first_tombstone))
  | i :: l =>
    let seen := seen ++ [i] in
    match state t !! i with
    | None => Raise IndexError
    | Some EMPTY => Ok (seen, (None, Some (default i first_tombstone)))
    | Some OCCUPIED =>
      match keys t !! i with
      | None => Raise IndexError
      | Some k =>
        if decide (k = Some key) then Ok (seen, (Some i, None))
        else scan t key l first_tombstone seen
      end
    | Some DELETED => scan t key l (Some (default i first_tombstone)) seen
    end
  end.

(** Slot [i] is OCCUPIED and holds [key]. *)
Definition holds (t : FixedHashTable) (key : string) (i : nat) : Prop :=
  state t !! i = Some OCCUPIED /\ keys t !! i = Some (Some key).

(** Slot [i] is one a probe for [key] walks past: a tombstone, or OCCUPIED
    by something else. *)
Definition passed (t : FixedHashTable) (key : string) (i : nat) : Prop :=
  state t !! i = Some DELETED
  \/ (state t !! i = Some OCCUPIED /\ exists k, keys t !! i = Some k /\ k <> Some key).

(** The first DELETED slot of a list of slots. *)
Definition first_deleted (t : FixedHashTable) (l : list nat) : option nat :=
  List.find (fun i => bool_decide (state t !! i = Some DELETED)) l.

(** [a if a is not None else b] on optional indices. *)
Definition or_else (a b : option nat) : option nat :=
  match a with Some _ => a | None => b end.

(** The lists of the table all have [capacity] entries, and there is at
    least one slot. *)
Definition wf (t : FixedHashTable) : Prop :=
  capacity t <> 0
  /\ length (keys t) = capacity t
  /\ length (vals t) = capacity t
  /\ length (state t) = capacity t
  /\ length (prev t) = capacity t
  /\ length (next t) = capacity t.

(** The three ways the specification lets a probe for [key] end, with the
    slots it has inspected:
    - it reaches an OCCUPIED slot holding [key];
    - it reaches an EMPTY slot;
    - it comes back to its start having walked past every slot. *)
Inductive probe_result (t : FixedHashTable) (key : string)
    : list nat * (option nat * option nat) -> Prop :=
| probe_found l1 i l2 :
    probe_path t key = l1 ++ i :: l2 ->
    Forall (passed t key) l1 ->
    holds t key i ->
    probe_result t key (l1 ++ [i], (Some i, None))
| probe_empty l1 i l2 :
    probe_path t key = l1 ++ i :: l2 ->
    Forall (passed t key) l1 ->
    state t !! i = Some EMPTY ->
    probe_result t key (l1 ++ [i], (None, Some (default i (first_deleted t l1))))
| probe_cycled :
    Forall (passed t key) (probe_path t key) ->
    probe_result t key (probe_path t key, (None, first_deleted t (probe_path t key))).

(** A method returns or raises on every table: it never uses up the
    iteration budget of the model. *)
Definition terminates {A} (m : M A) : Prop :=
  forall t, fst (m t) <> Diverge.

(** ** The recency list as a list of slots *)

(** [linked prev next p l]: following [next] walks through exactly the
    slots of [l], in order, and ends with a null link; [prev] walks back,
    the first slot's back link being [p]. *)
Fixpoint linked (prev next : list (option nat)) (p : option nat) (l : list nat)
    : Prop :=
  match l with
  | [] => True
  | i :: l' =>
    prev !! i = Some p /\ next !! i = Some (hd_error l')
    /\ linked prev next (Some i) l'
  end.

(** [l] is the recency list of [t], from [head] (most recent) to [tail]
    (least recent). *)
Definition recency_list (t : FixedHashTable) (l : list nat) : Prop :=
  head t = hd_error l /\ tail t = last l /\ linked (prev t) (next t) None l.

(** The writes of [_unlink i] to the two link arrays, [p] and [n] being the
    links read from slot [i]. *)
Definition unlink_prev (pv : list (option nat)) (i : nat) (p n : option nat) :=
  <[i:=None]> (match n with Some n' => <[n':=p]> pv | None => pv end).
Definition unlink_next (nx : list (option nat)) (i : nat) (p n : option nat) :=
  <[i:=None]> (match p with Some p' => <[p':=n]> nx | None => nx end).

(** The writes of [_link_to_head i] to the two link arrays, [h] being the
    head before the call. *)
Definition link_prev (pv : list (option nat)) (i : nat) (h : option nat) :=
  match h with
  | Some h' => <[h':=Some i]> (<[i:=None]> pv)
  | None => <[i:=None]> pv
  end.
Definition link_next (nx : list (option nat)) (i : nat) (h : option nat) :=
  <[i:=h]> nx.

(** [t'] differs from [t] in the recency links, [head] and [tail] only. *)
Definition same_slots (t t' : FixedHashTable) : Prop :=
  capacity t' = capacity t /\ keys t' = keys t /\ vals t' = vals t
  /\ state t' = state t /\ size t' = size t
  /\ length (prev t') = length (prev t) /\ length (next t') = length (next t).

(** ** The invariant *)

(** The invariant the operations maintain.  Beyond the data-model invariant
    of the specification it records what linear probing relies on
    ([inv_path]): on the probe path of a live key no EMPTY slot comes before
    the slot that holds it. *)
Record Inv (t : FixedHashTable) : Prop := mkInv {
  inv_wf : wf t;
  inv_keys : forall i k,
    keys t !! i = Some k -> (is_Some k <-> state t !! i = Some OCCUPIED);
  inv_vals : forall i v,
    vals t !! i = Some v -> (is_Some v <-> state t !! i = Some OCCUPIED);
  inv_uniq : forall key i j, holds t key i -> holds t key j -> i = j;
  inv_path : forall key i l1 l2,
    holds t key i -> probe_path t key = l1 ++ i :: l2 ->
    Forall (fun j => state t !! j <> Some EMPTY) l1;
  inv_recency : exists l,
    recency_list t l /\ NoDup l
    /\ (forall i, i ∈ l <-> state t !! i = Some OCCUPIED)
    /\ size t = Z.of_nat (length l)
}.

(** What [_probe key] does on a table that satisfies the invariant. *)
Inductive probe_view (t : FixedHashTable) (key : string)
    : outcome (option nat * option nat) * FixedHashTable -> Prop :=
| view_found i :
    holds t key i ->
    probe_view t key (Ok (Some i, None), t)
| view_free j l1 l2 :
    (forall i, ~ holds t key i) ->
    probe_path t key = l1 ++ j :: l2 ->
    Forall (passed t key) l1 ->
    state t !! j = Some EMPTY \/ state t !! j = Some DELETED ->
    probe_view t key (Ok (None, Some j), t)
| view_full :
    (forall i, ~ holds t key i) ->
    (forall i, i < capacity t -> state t !! i = Some OCCUPIED) ->
    probe_view t key (Ok (None, None), t).

(** ** Public operations and reachable tables *)

(** The public operations of the table facade. *)
Inductive op :=
| OpInsert (key : string) (value : Z)
| OpGet (key : string)
| OpRemove (key : string)
| OpGetLast
| OpGetFirst
| OpItems.

(** The table an operation leaves behind, whether it returned or raised. *)
Definition exec (o : op) (t : FixedHashTable) : FixedHashTable :=
  match o with
  | OpInsert key value => snd (insert key value t)
  | OpGet key => snd (get key t)
  | OpRemove key => snd (remove key t)
  | OpGetLast => snd (get_last t)
  | OpGetFirst => snd (get_first t)
  | OpItems => snd (items t)
  end.

(** The tables a program can hold: built by [__init__], then changed by
    public operations only. *)
Inductive reachable : FixedHashTable -> Prop :=
| reachable_init c t : __init__ c = Ok t -> reachable t
| reachable_step o t : reachable t -> reachable (exec o t).

(** The data-model invariant of the specification. *)
Record DataInv (t : FixedHashTable) : Prop := mkDataInv {
  (* one slot per index 0..capacity-1 *)
  di_slots : wf t;
  (* 0 <= size <= capacity *)
  di_size_bounds : (0 <= size t <= Z.of_nat (capacity t))%Z;
  (* size = count of OCCUPIED slots *)
  di_size_count :
    size t = Z.of_nat (length (filter (fun s => s = OCCUPIED) (state t)));
  (* a slot holds a key / a value iff it is OCCUPIED *)
  di_keys : forall i, i < capacity t ->
    ((exists k, keys t !! i = Some (Some k)) <-> state t !! i = Some OCCUPIED);
  di_vals : forall i, i < capacity t ->
    ((exists v, vals t !! i = Some (Some v)) <-> state t !! i = Some OCCUPIED);
  (* each live key occupies exactly one slot *)
  di_uniq : forall key i j, holds t key i -> holds t key j -> i = j;
  (* the recency list holds exactly the OCCUPIED slots, each once *)
  di_recency : exists l,
    recency_list t l /\ NoDup l
    /\ (forall i, i ∈ l <-> state t !! i = Some OCCUPIED);
  (* head == tail == null iff size == 0 *)
  di_empty : (head t = None /\ tail t = None) <-> size t = 0%Z
}.

(** A sequence of public operations, run in order. *)
Definition run_ops (ops : list op) (t : FixedHashTable) : FixedHashTable :=
  fold_left (fun t o => exec o t) ops t.

(** The entry [(self.keys[i], self.vals[i])] of slot [i], as [get_last] and
    [get_first] return it. *)
Definition entry (t : FixedHashTable) (i : nat) : option (option string * option Z) :=
  match keys t !! i, vals t !! i with
  | Some k, Some v => Some (k, v)
  | _, _ => None
  end.

(** ** Observing a table *)

(** The slots met when following [next] links from [cur], at most [fuel]
    of them. *)
Fixpoint walk (next : list (option nat)) (fuel : nat) (cur : option nat)
    : list nat :=
  match fuel, cur with
  | S fuel, Some i => i :: walk next fuel (default None (next !! i))
  | _, _ => []
  end.

(** The recency list read off the table: from [head] along [next]. *)
Definition recency (t : FixedHashTable) : list nat :=
  walk (next t) (capacity t) (head t).

(** The key and the value in slot [i], when it has both. *)
Definition slot_pair (t : FixedHashTable) (i : nat) : option (string * Z) :=
  match keys t !! i, vals t !! i with
  | Some (Some k), Some (Some v) => Some (k, v)
  | _, _ => None
  end.

(** What the table holds: its (key, value) pairs, from the most recently
    to the least recently inserted or changed. *)
Definition contents (t : FixedHashTable) : list (string * Z) :=
  omap (slot_pair t) (recency t).

(** [l] is the recency list of [t] and [al] the pairs in its slots. *)
Definition view (t : FixedHashTable) (l : list nat) (al : list (string * Z))
    : Prop :=
  recency_list t l /\ Forall2 (fun i kv => slot_pair t i = Some kv) l al.

(** The pairs of [al] whose key is not [key]. *)
Definition without (key : string) (al : list (string * Z)) : list (string * Z) :=
  filter (fun kv => fst kv <> key) al.

(** ** The word-count driver ([run_hashtable_gutenberg.py]) *)

(** One turn of the loop of [build_word_counts]:
    [try: c = ht.get(w); ht.insert(w, c + 1)
     except KeyError: ht.insert(w, 1)].
    The handler guards both calls of the [try] block. *)
Definition count_word (w : string) (ht : FixedHashTable)
    : run_outcome FixedHashTable :=
  let on_key_error (ht : FixedHashTable) :=
    match insert w 1 ht with
    | (Ok _, ht) => Returned ht
    | (Raise e, _) => Raised e
    | (Diverge, _) => Hung
    end in
  match get w ht with
  | (Ok None, _) => RaisedTypeError
  | (Ok (Some c), ht) =>
    match insert w (c + 1) ht with
    | (Ok _, ht) => Returned ht
    | (Raise (KeyError _), ht) => on_key_error ht
    | (Raise e, _) => Raised e
    | (Diverge, _) => Hung
    end
  | (Raise (KeyError _), ht) => on_key_error ht
  | (Raise e, _) => Raised e
  | (Diverge, _) => Hung
  end.

(** [for w in words: ...], the iterator run to its end. *)
Fixpoint count_words (words : list string) (ht : FixedHashTable)
    : run_outcome FixedHashTable :=
  match words with
  | [] => Returned ht
  | w :: words =>
    match count_word w ht with
    | Returned ht => count_words words ht
    | r => r
    end
  end.

(** [build_word_counts(words, capacity)]; the source's default for
    [capacity] is 200_000. *)
Definition build_word_counts (words : list string) (capacity : Z)
    : run_outcome FixedHashTable :=
  match __init__ capacity with
  | Ok ht => count_words words ht
  | Raise e => Raised e
  | Diverge => Hung
  end.

(** How often [w] occurs in [words]. *)
Definition occurrences (w : string) (words : list string) : Z :=
  Z.of_nat (length (filter (fun x => x = w) words)).

(** The word counts of a text: each distinct word with its number of
    occurrences, the word whose last occurrence comes latest first. *)
Definition tally (words : list string) : list (string * Z) :=
  (fun w => (w, occurrences w words)) <$> reverse (remove_dups words).

(** ** The tokenizer ([run_hashtable_gutenberg.py]) *)

(** The character class [[A-Za-z]] of [WORD_RE]. *)
Definition is_letter (c : Ascii.ascii) : bool :=
  (Ascii.leb "A"%char c && Ascii.leb c "Z"%char) || (Ascii.leb "a"%char c && Ascii.leb c "z"%char).

(** [str.lower] on one character of a match of [WORD_RE]: an ASCII capital
    moves to its small letter, a small letter and the apostrophe stay. *)
Definition lower_char (c : Ascii.ascii) : Ascii.ascii :=
  if Ascii.leb "A"%char c && Ascii.leb c "Z"%char then Ascii.ascii_of_nat (Ascii.nat_of_ascii c + 32)
  else c.

Fixpoint lower (s : string) : string :=
  match s with
  | EmptyString => EmptyString
  | String c s => String (lower_char c) (lower s)
  end.

(** [[A-Za-z]*] at the start of [s], greedy: the longest run of letters
    and what follows it. *)
Fixpoint letters (s : string) : string * string :=
  match s with
  | EmptyString => (EmptyString, EmptyString)
  | String c s' =>
    if is_letter c then
      let (w, r) := letters s' in (String c w, r)
    else (EmptyString, s)
  end.

(** [WORD_RE.match] at the start of [s], for
    [WORD_RE = [A-Za-z]+(?:'[A-Za-z]+)?]: the match and the rest of [s].
    Both repetitions are greedy and what follows a longest run of letters
    is no letter, so the optional group is taken exactly when an
    apostrophe and at least one letter come next. *)
Definition match_word (s : string) : option (string * string) :=
  match letters s with
  | (EmptyString, _) => None
  | (w, r) =>
    match r with
    | String c r' =>
      if Ascii.eqb c "'"%char then
        match letters r' with
        | (EmptyString, _) => Some (w, r)
        | (w2, r2) => Some (w +:+ String "'"%char w2, r2)
        end
      else Some (w, r)
    | EmptyString => Some (w, r)
    end
  end.

(** [WORD_RE.finditer(text)]: the matches from left to right, the search
    going on where the last match ended, or one character further where
    there is none.  One unit of [fuel] per search. *)
Fixpoint finditer (fuel : nat) (text : string) : list string :=
  match fuel with
  | 0 => []
  | S fuel =>
    match text with
    | EmptyString => []
    | String _ text' =>
      match match_word text with
      | Some (m, rest) => m :: finditer fuel rest
      | None => finditer fuel text'
      end
    end
  end.

(** [tokenize(text)], the generator run to its end.  A search consumes at
    least one character, so [len(text)] searches are enough
    ([finditer_fuel]). *)
Definition tokenize (text : string) : list string :=
  lower <$> finditer (String.length text) text.

(** A nonempty string of ASCII letters. *)
Fixpoint all_letters (s : string) : bool :=
  match s with
  | EmptyString => true
  | String c s => is_letter c && all_letters s
  end.

Definition letter_run (s : string) : Prop :=
  s <> EmptyString /\ all_letters s = true.

(** The strings [WORD_RE] matches in full: letters, or letters, one
    apostrophe, letters. *)
Definition word_form (s : string) : Prop :=
  letter_run s
  \/ exists w1 w2, s = w1 +:+ String "'"%char w2 /\ letter_run w1 /\ letter_run w2.

End FixedHashTable.

(** ** Concrete tables *)

(** A stand-in for the salted hash, to run the code on: the length of the
    key.  All one-letter keys collide on slot [1 mod capacity]. *)
Definition length_hash : StringHash := fun s => Z.of_nat (String.length s).

Definition empty_table (c : nat) : FixedHashTable :=
  mkTable c (replicate c None) (replicate c None) (replicate c EMPTY)
          (replicate c None) (replicate c None) None None 0%Z.

(** The scenario of the specification up to its fourth step, capacity 4:
    "z" ends up in the tombstone that removing "x" left in slot 1. *)
Definition scenario_table : FixedHashTable :=
  Eval vm_compute in
  @run_ops length_hash
    [OpInsert "x" 1; OpInsert "y" 2; OpRemove "x"; OpInsert "z" 3] (empty_table 4).

(** Three colliding keys in a table of four slots; recency order c, b, a. *)
Definition abc_table : FixedHashTable :=
  Eval vm_compute in
  @run_ops length_hash
    [OpInsert "a" 1; OpInsert "b" 2; OpInsert "c" 3] (empty_table 4).

(** A saturated table: capacity 2, both slots OCCUPIED. *)
Definition full_table : FixedHashTable :=
  Eval vm_compute in
  @run_ops length_hash [OpInsert "a" 1; OpInsert "b" 2] (empty_table 2).

(** "x" in slot 1 and "y" in slot 2, recency order y, x. *)
Definition xy_table : FixedHashTable :=
  Eval vm_compute in
  @run_ops length_hash [OpInsert "x" 1; OpInsert "y" 2] (empty_table 4).

(** "x" and "y" inserted, "x" removed again: slot 1 is a tombstone. *)
Definition tombstone_table : FixedHashTable :=
  Eval vm_compute in
  @run_ops length_hash [OpInsert "x" 1; OpInsert "y" 2; OpRemove "x"] (empty_table 4).

(** A short text and the table [build_word_counts] makes of it. *)
Definition the_cat_words : list string := ["the"; "cat"; "the"].

Definition the_cat_table : FixedHashTable :=
  Eval vm_compute in
  match @build_word_counts length_hash the_cat_words 4 with
  | Returned t => t
  | _ => empty_table 4
  end.

(** * Proofs *)

Section Proofs.

Context {salted : StringHash}.

(** ** Index arithmetic of the probe *)

Lemma step_mod (cap a : nat) : 0 < cap ->
  (if decide (a mod cap + 1 = cap) then 0 else a mod cap + 1) = S a mod cap.
Proof.
  intros Hc.
  pose proof (Nat.div_mod_eq a cap) as Ha.
  pose proof (Nat.mod_upper_bound a cap ltac:(lia)) as Hr.
  case_decide as Hd.
  - apply (Nat.mod_unique _ _ (S (a / cap))); lia.
  - apply (Nat.mod_unique _ _ (a / cap)); lia.
Qed.

Lemma cycle_mod (cap start k : nat) : start < cap -> 0 < k -> k <= cap ->
  (start + k) mod cap = start <-> k = cap.
Proof.
  intros Hs Hk Hle. split.
  - intros Heq.
    pose proof (Nat.div_mod_eq (start + k) cap) as Ha. rewrite Heq in Ha.
    destruct ((start + k) / cap) as [|[|q]]; nia.
  - intros ->. symmetry. apply (Nat.mod_unique _ _ 1); lia.
Qed.

Lemma start_of_lt t key : capacity t <> 0 -> start_of t key < capacity t.
Proof.
  intros Hc. unfold start_of.
  pose proof (Z.mod_pos_bound (Z.land (hash key) 0x7FFFFFFF) (Z.of_nat (capacity t))
                ltac:(lia)). lia.
Qed.

Lemma drop_probe_path t key j :
  drop j (probe_path t key)
  = (fun j => (start_of t key + j) mod capacity t) <$> seq j (capacity t - j).
Proof. unfold probe_path. by rewrite <- fmap_drop, drop_seq. Qed.

(** ** The loop is the scan of the probe path *)

Lemma probe_loop_scan t key fuel j ft seen :
  j < capacity t -> capacity t - j <= fuel ->
  probe_loop fuel key (start_of t key) ((start_of t key + j) mod capacity t) ft seen t
  = (scan t key (drop j (probe_path t key)) ft seen, t).
Proof.
  revert j ft seen. induction fuel as [|fuel IH]; intros j ft seen Hj Hf; [lia|].
  assert (Hc : capacity t <> 0) by lia.
  pose proof (start_of_lt t key Hc) as Hs.
  rewrite drop_probe_path.
  replace (capacity t - j) with (S (capacity t - S j)) by lia.
  cbn [seq fmap list_fmap scan probe_loop].
  set (i := (start_of t key + j) mod capacity t).
  assert (Hadv : forall ft',
    (cap <~ gets capacity;
      let i0 := i + 1 in
      let i1 := if decide (i0 = cap) then 0 else i0 in
      if decide (i1 = start_of t key) then ret (seen ++ [i], (None, ft'))
      else probe_loop fuel key (start_of t key) i1 ft' (seen ++ [i])) t
    = (scan t key ((fun j => (start_of t key + j) mod capacity t)
                     <$> seq (S j) (capacity t - S j))
         ft' (seen ++ [i]), t)).
  { intros ft'. unfold bind, gets. cbn zeta. unfold i.
    rewrite step_mod by lia. rewrite <- Nat.add_succ_r.
    case_decide as Hd.
    - apply cycle_mod in Hd; [|lia..].
      replace (capacity t - S j) with 0 by lia. done.
    - rewrite IH by (rewrite cycle_mod in Hd by lia; lia).
      by rewrite drop_probe_path. }
  unfold bind at 1. unfold load at 1.
  destruct (state t !! i) as [[]|]; try done.
  unfold bind at 1. unfold load at 1.
  destruct (keys t !! i) as [k|]; [|done].
  case_decide; [done|]. apply Hadv.
Qed.

Lemma probe_fuel_scan t key fuel :
  capacity t <> 0 -> capacity t <= fuel ->
  probe_fuel fuel key t = (scan t key (probe_path t key) None [], t).
Proof.
  intros Hc Hf. unfold probe_fuel, bind, _idx. case_decide; [done|].
  fold (start_of t key).
  pose proof (probe_loop_scan t key fuel 0 None []) as H0.
  rewrite Nat.add_0_r, Nat.mod_small in H0 by (by apply start_of_lt).
  rewrite H0 by lia. done.
Qed.

Lemma probe_fuel_zero t key fuel :
  capacity t = 0 -> probe_fuel fuel key t = (Raise ZeroDivisionError, t).
Proof. intros Hc. unfold probe_fuel, bind, _idx. by case_decide. Qed.

Lemma probe_traced_scan t key :
  capacity t <> 0 ->
  probe_traced key t = (scan t key (probe_path t key) None [], t).
Proof. intros Hc. unfold probe_traced, bind, gets. by apply probe_fuel_scan. Qed.

(** ** Probe path: a permutation of the slot indices *)

Lemma length_probe_path t key : length (probe_path t key) = capacity t.
Proof. unfold probe_path. by rewrite length_fmap, length_seq. Qed.

Lemma probe_path_lt t key i : i ∈ probe_path t key -> i < capacity t.
Proof.
  unfold probe_path. intros (j & -> & Hj)%list_elem_of_fmap.
  apply elem_of_seq in Hj. apply Nat.mod_upper_bound. lia.
Qed.

Lemma NoDup_probe_path t key : NoDup (probe_path t key).
Proof.
  unfold probe_path. apply NoDup_fmap_2_strong; [|apply NoDup_seq].
  intros j1 j2 Hj1%elem_of_seq Hj2%elem_of_seq Heq.
  destruct (decide (capacity t = 0)) as [|Hc]; [lia|].
  pose proof (start_of_lt t key Hc) as Hs.
  pose proof (Nat.div_mod_eq (start_of t key + j1) (capacity t)) as E1.
  pose proof (Nat.div_mod_eq (start_of t key + j2) (capacity t)) as E2.
  rewrite Heq in E1.
  assert ((start_of t key + j1) / capacity t < 2) by
    (apply Nat.Div0.div_lt_upper_bound; lia).
  assert ((start_of t key + j2) / capacity t < 2) by
    (apply Nat.Div0.div_lt_upper_bound; lia).
  destruct ((start_of t key + j1) / capacity t) as [|[|?]],
           ((start_of t key + j2) / capacity t) as [|[|?]]; lia.
Qed.

Lemma probe_path_elem t key i : i < capacity t -> i ∈ probe_path t key.
Proof.
  intros Hi. assert (Hc : capacity t <> 0) by lia.
  pose proof (start_of_lt t key Hc) as Hs.
  unfold probe_path. apply list_elem_of_fmap.
  destruct (decide (start_of t key <= i)).
  - exists (i - start_of t key). split; [|apply elem_of_seq; lia].
    replace (start_of t key + (i - start_of t key)) with i by lia.
    by rewrite Nat.mod_small.
  - exists (capacity t + i - start_of t key). split; [|apply elem_of_seq; lia].
    apply (Nat.mod_unique _ _ 1); lia.
Qed.

(** ** The scan of a list of slots *)

Lemma or_else_None a : or_else a None = a.
Proof. by destruct a. Qed.

Lemma first_deleted_cons t i l :
  first_deleted t (i :: l)
  = if decide (state t !! i = Some DELETED) then Some i else first_deleted t l.
Proof.
  unfold first_deleted. cbn.
  destruct (decide (state t !! i = Some DELETED));
    [rewrite bool_decide_eq_true_2|rewrite bool_decide_eq_false_2]; done.
Qed.

Lemma scan_passed t key l1 l2 ft seen :
  Forall (passed t key) l1 ->
  scan t key (l1 ++ l2) ft seen
  = scan t key l2 (or_else ft (first_deleted t l1)) (seen ++ l1).
Proof.
  intros Hp. revert ft seen.
  induction Hp as [|a l1 Ha _ IH]; intros ft seen.
  - by rewrite or_else_None, app_nil_r.
  - rewrite first_deleted_cons. cbn [app scan].
    destruct Ha as [Hd|(Ho & k & Hk & Hne)].
    + rewrite Hd, IH, decide_True, <- app_assoc by done. by destruct ft.
    + rewrite Ho, Hk, decide_False, IH, decide_False, <- app_assoc by congruence.
      done.
Qed.

Lemma scan_found t key l1 i l2 ft seen :
  Forall (passed t key) l1 -> holds t key i ->
  scan t key (l1 ++ i :: l2) ft seen = Ok (seen ++ l1 ++ [i], (Some i, None)).
Proof.
  intros Hp [Ho Hk]. rewrite scan_passed by done. cbn.
  by rewrite Ho, Hk, decide_True, <- app_assoc.
Qed.

Lemma scan_empty t key l1 i l2 ft seen :
  Forall (passed t key) l1 -> state t !! i = Some EMPTY ->
  scan t key (l1 ++ i :: l2) ft seen
  = Ok (seen ++ l1 ++ [i], (None, Some (default i (or_else ft (first_deleted t l1))))).
Proof.
  intros Hp He. rewrite scan_passed by done. cbn.
  by rewrite He, <- app_assoc.
Qed.

Lemma scan_cycled t key l ft seen :
  Forall (passed t key) l ->
  scan t key l ft seen = Ok (seen ++ l, (None, or_else ft (first_deleted t l))).
Proof.
  intros Hp. rewrite <- (app_nil_r l) at 1. by rewrite scan_passed.
Qed.

(** Every readable list of slots splits at its first EMPTY or matching
    slot, or is walked past entirely. *)
Lemma scan_cases t key l :
  Forall (fun i => is_Some (state t !! i) /\ is_Some (keys t !! i)) l ->
  Forall (passed t key) l
  \/ exists l1 i l2, l = l1 ++ i :: l2 /\ Forall (passed t key) l1
       /\ (state t !! i = Some EMPTY \/ holds t key i).
Proof.
  induction 1 as [|a l [[s Hs] [k Hk]] _ IH]; [by left|].
  assert (Hnow : passed t key a \/ state t !! a = Some EMPTY \/ holds t key a).
  { unfold passed, holds. destruct s; [by auto| |by auto].
    destruct (decide (k = Some key)) as [->|]; [by auto|].
    left. right. eauto. }
  destruct Hnow as [Hp|Hstop].
  - destruct IH as [IH|(l1 & i & l2 & -> & Hl1 & Hi)].
    + left. by constructor.
    + right. exists (a :: l1), i, l2. split; [done|]. split; [by constructor|done].
  - right. by exists [], a, l.
Qed.

Lemma wf_readable t key :
  wf t ->
  Forall (fun i => is_Some (state t !! i) /\ is_Some (keys t !! i)) (probe_path t key).
Proof.
  intros (_ & Hk & _ & Hs & _). apply Forall_forall. intros i Hi%probe_path_lt.
  split; apply lookup_lt_is_Some; lia.
Qed.

(** On a well-formed table [_probe] returns, leaves the table as it is, and
    ends in one of the three ways of the specification. *)
Lemma probe_traced_ok t key :
  wf t -> exists r, probe_traced key t = (Ok r, t) /\ probe_result t key r.
Proof.
  intros Hwf. rewrite probe_traced_scan by apply Hwf.
  destruct (scan_cases t key _ (wf_readable t key Hwf))
    as [Hall|(l1 & i & l2 & Hpath & Hl1 & [He|Hh])].
  - rewrite scan_cycled by done. eexists. split; [done|]. by apply probe_cycled.
  - rewrite Hpath, scan_empty by done. eexists. split; [done|].
    by eapply probe_empty.
  - rewrite Hpath, scan_found by done. eexists. split; [done|].
    by eapply probe_found.
Qed.

Lemma probe_traced_eq t key :
  probe_traced key t
  = (if decide (capacity t = 0) then Raise ZeroDivisionError
     else scan t key (probe_path t key) None [], t).
Proof.
  case_decide.
  - unfold probe_traced, bind, gets. by apply probe_fuel_zero.
  - by apply probe_traced_scan.
Qed.

Lemma probe_fuel_enough t key fuel :
  capacity t <= fuel -> probe_fuel fuel key t = probe_traced key t.
Proof.
  intros Hf. rewrite probe_traced_eq. case_decide.
  - by apply probe_fuel_zero.
  - by apply probe_fuel_scan.
Qed.

Lemma probe_traced_frame t key : snd (probe_traced key t) = t.
Proof. by rewrite probe_traced_eq. Qed.

Lemma _probe_eq t key :
  _probe key t
  = (match fst (probe_traced key t) with
     | Ok r => Ok (snd r)
     | Raise e => Raise e
     | Diverge => Diverge
     end, t).
Proof.
  unfold _probe, bind. pose proof (probe_traced_frame t key) as Hf.
  destruct (probe_traced key t) as [[r|e|] t']; cbn in *; by subst.
Qed.

Lemma _probe_frame t key : snd (_probe key t) = t.
Proof. by rewrite _probe_eq. Qed.

Lemma scan_not_diverge t key l ft seen : scan t key l ft seen <> Diverge.
Proof.
  revert ft seen. induction l as [|i l IH]; intros ft seen; cbn; [done|].
  destruct (state t !! i) as [[]|]; try done.
  destruct (keys t !! i); [|done]. by case_decide.
Qed.

Lemma scan_trace t key l ft seen s r :
  scan t key l ft seen = Ok (s, r) -> exists l1 l2, l = l1 ++ l2 /\ s = seen ++ l1.
Proof.
  revert ft seen. induction l as [|i l IH]; intros ft seen; cbn.
  - intros [= <- <-]. exists [], []. by rewrite !app_nil_r.
  - assert (Hrec : forall ft', scan t key l ft' (seen ++ [i]) = Ok (s, r) ->
        exists l1 l2, i :: l = l1 ++ l2 /\ s = seen ++ l1).
    { intros ft' (l1 & l2 & -> & ->)%IH. exists (i :: l1), l2.
      by rewrite <- app_assoc. }
    destruct (state t !! i) as [[]|]; try done.
    + intros [= <- <-]. by exists [i], l.
    + destruct (keys t !! i); [|done]. case_decide; [|by apply Hrec].
      intros [= <- <-]. by exists [i], l.
    + apply Hrec.
Qed.

(** ** Termination *)

Lemma terminates_ret {A} (a : A) : terminates (ret a).
Proof. by intros t. Qed.

Lemma terminates_raise {A} e : terminates (@raise A e).
Proof. by intros t. Qed.

Lemma terminates_gets {A} (f : FixedHashTable -> A) : terminates (gets f).
Proof. by intros t. Qed.

Lemma terminates_load {A} (f : FixedHashTable -> list A) i : terminates (load f i).
Proof. intros t. unfold load. by destruct (f t !! i). Qed.

Lemma terminates_store {A} (f : FixedHashTable -> list A) upd i x :
  terminates (store f upd i x).
Proof. intros t. unfold store. by case_decide. Qed.

Lemma terminates_bind {A B} (m : M A) (k : A -> M B) :
  terminates m -> (forall a, terminates (k a)) -> terminates (bind m k).
Proof.
  intros Hm Hk t. unfold bind. specialize (Hm t).
  destruct (m t) as [[a|e|] t']; [apply Hk|done..].
Qed.

Lemma terminates_probe_traced key : terminates (probe_traced key).
Proof.
  intros t. rewrite probe_traced_eq. cbn. case_decide; [done|].
  apply scan_not_diverge.
Qed.

Lemma terminates__probe key : terminates (_probe key).
Proof.
  apply terminates_bind; [apply terminates_probe_traced|].
  intros r. apply terminates_ret.
Qed.

Lemma terminates__link_to_head i : terminates (_link_to_head i).
Proof.
  unfold _link_to_head.
  repeat first
    [ apply terminates_bind; [|intros ?]
    | apply terminates_store | apply terminates_gets | apply terminates_ret
    | by intros ?
    | match goal with |- terminates (match ?x with _ => _ end) => destruct x end ].
Qed.

Lemma terminates__unlink i : terminates (_unlink i).
Proof.
  unfold _unlink.
  repeat first
    [ apply terminates_bind; [|intros ?]
    | apply terminates_store | apply terminates_load | apply terminates_ret
    | by intros ?
    | match goal with |- terminates (match ?x with _ => _ end) => destruct x end ].
Qed.

Lemma terminates__move_to_head i : terminates (_move_to_head i).
Proof.
  unfold _move_to_head. apply terminates_bind; [apply terminates_gets|].
  intros h. case_decide; [apply terminates_ret|].
  apply terminates_bind; [apply terminates__unlink|].
  intros _. apply terminates__link_to_head.
Qed.

Lemma terminates_insert key value : terminates (insert key value).
Proof.
  unfold insert. apply terminates_bind; [apply terminates__probe|].
  intros [[found|] [ins|]];
    repeat first
      [ apply terminates__move_to_head | apply terminates__link_to_head
      | apply terminates_store | apply terminates_raise
      | apply terminates_bind; [|intros ?]
      | by intros ? ].
Qed.

Lemma terminates_get key : terminates (get key).
Proof.
  unfold get. apply terminates_bind; [apply terminates__probe|].
  intros [[found|] ?]; cbn; [apply terminates_load|apply terminates_raise].
Qed.

Lemma terminates_remove key : terminates (remove key).
Proof.
  unfold remove. apply terminates_bind; [apply terminates__probe|].
  intros [[found|] ?]; cbn; [|apply terminates_raise].
  repeat first
    [ apply terminates__unlink | apply terminates_store
    | apply terminates_bind; [|intros ?]
    | by intros ? ].
Qed.

(** ** The doubly linked list under [_unlink] and [_link_to_head] *)

Lemma linked_frame pv nx pv' nx' p l :
  (forall j, j ∈ l -> pv' !! j = pv !! j /\ nx' !! j = nx !! j) ->
  linked pv nx p l -> linked pv' nx' p l.
Proof.
  revert p. induction l as [|i l IH]; intros p Hsame; [done|].
  cbn. intros (Hp & Hn & Hl).
  destruct (Hsame i) as [-> ->]; [by left|].
  repeat split; [done..|]. apply IH; [|done].
  intros j Hj. apply Hsame. by right.
Qed.

Lemma linked_lt pv nx p l i :
  linked pv nx p l -> i ∈ l -> i < length pv /\ i < length nx.
Proof.
  revert p. induction l as [|a l IH]; intros p; cbn.
  - by intros _ ?%elem_of_nil.
  - intros (Hp & Hn & Hl) [->|Hi]%elem_of_cons; [|by eapply IH].
    split; by eapply lookup_lt_Some.
Qed.

Lemma linked_middle pv nx p0 l1 i l2 :
  linked pv nx p0 (l1 ++ i :: l2) ->
  pv !! i = Some (from_option Some p0 (last l1)) /\ nx !! i = Some (hd_error l2).
Proof.
  revert p0. induction l1 as [|a l1 IH]; intros p0; cbn.
  - by intros (? & ? & _).
  - intros (_ & _ & Hl). apply IH in Hl as [Hp Hn]. split; [|done].
    rewrite Hp, last_cons. by destruct (last l1).
Qed.

Lemma linked_unlink pv nx p0 l1 i l2 :
  NoDup (l1 ++ i :: l2) ->
  (forall q, p0 = Some q -> q ∉ l1 ++ i :: l2) ->
  linked pv nx p0 (l1 ++ i :: l2) ->
  linked (unlink_prev pv i (from_option Some p0 (last l1)) (hd_error l2))
         (unlink_next nx i (from_option Some p0 (last l1)) (hd_error l2))
         p0 (l1 ++ l2).
Proof.
  revert p0. induction l1 as [|a l1 IH]; intros p0 Hnd Hp0.
  - cbn. intros (Hpi & Hni & Hl2).
    apply NoDup_cons in Hnd as [Hi Hnd].
    destruct l2 as [|n1 l2]; [done|]. cbn in Hl2 |- *.
    destruct Hl2 as (Hpn & Hnn & Hl2).
    apply NoDup_cons in Hnd as [Hn1 Hnd].
    assert (i <> n1) by (intros ->; apply Hi; by left).
    unfold unlink_prev, unlink_next. repeat split.
    + rewrite list_lookup_insert_ne by done.
      apply list_lookup_insert_eq. by eapply lookup_lt_Some.
    + rewrite list_lookup_insert_ne by done.
      destruct p0 as [q|]; [|done].
      rewrite list_lookup_insert_ne; [done|].
      intros ->. apply (Hp0 n1 eq_refl). right. by left.
    + eapply linked_frame; [|done]. intros j Hj.
      assert (j <> i) by (intros ->; apply Hi; by right).
      assert (j <> n1) by (by intros ->).
      rewrite !list_lookup_insert_ne by done. split; [done|].
      destruct p0 as [q|]; [|done].
      rewrite list_lookup_insert_ne; [done|].
      intros ->. apply (Hp0 j eq_refl). right. by right.
  - cbn [app linked]. intros (Hpa & Hna & Hl).
    cbn [app] in Hnd. apply NoDup_cons in Hnd as [Ha Hnd].
    assert (Hlast : from_option Some p0 (last (a :: l1))
                    = from_option Some (Some a) (last l1)).
    { rewrite last_cons. by destruct (last l1). }
    rewrite Hlast.
    specialize (IH (Some a) Hnd).
    assert (a <> i) by (intros ->; apply Ha, elem_of_app; right; by left).
    repeat split.
    + unfold unlink_prev. rewrite list_lookup_insert_ne by done.
      destruct l2 as [|n1 l2]; [done|]. cbn.
      rewrite list_lookup_insert_ne; [done|].
      intros ->. apply Ha, elem_of_app. right. right. by left.
    + unfold unlink_next. rewrite list_lookup_insert_ne by done.
      destruct l1 as [|b l1]; cbn.
      * apply list_lookup_insert_eq. by eapply lookup_lt_Some.
      * cbn in Hna. rewrite <- Hna.
        destruct (last (b :: l1)) as [c|] eqn:Hc;
          [|by apply last_None in Hc]. cbn.
        apply list_lookup_insert_ne. intros ->.
        apply Ha, elem_of_app. left. by eapply last_Some_elem_of.
    + apply IH; [|done]. by intros q [= <-].
Qed.

Lemma linked_link pv nx i l :
  NoDup l -> i ∉ l -> i < length pv -> i < length nx ->
  linked pv nx None l ->
  linked (link_prev pv i (hd_error l)) (link_next nx i (hd_error l)) None (i :: l).
Proof.
  intros Hnd Hi Hpv Hnx Hl. unfold link_prev, link_next.
  destruct l as [|h l]; cbn in *.
  - repeat split; by apply list_lookup_insert_eq.
  - destruct Hl as (Hph & Hnh & Hl).
    apply NoDup_cons in Hnd as [Hh Hnd].
    assert (h <> i) by (intros ->; apply Hi; by left).
    repeat split.
    + rewrite list_lookup_insert_ne by done. by apply list_lookup_insert_eq.
    + by apply list_lookup_insert_eq.
    + apply list_lookup_insert_eq. rewrite length_insert. by eapply lookup_lt_Some.
    + by rewrite list_lookup_insert_ne.
    + eapply linked_frame; [|done]. intros j Hj.
      assert (j <> h) by (by intros ->).
      assert (j <> i) by (intros ->; apply Hi; by right).
      by rewrite !list_lookup_insert_ne.
Qed.

Lemma linked_unique pv nx p l l' :
  linked pv nx p l -> linked pv nx p l' -> hd_error l = hd_error l' -> l = l'.
Proof.
  revert p l'. induction l as [|a l IH]; intros p [|a' l']; cbn; try done.
  intros (_ & Hn & Hl) (_ & Hn' & Hl') [= <-]. f_equal.
  eapply IH; [done..|]. congruence.
Qed.

(** ** The recency helpers on a table *)

Lemma _link_to_head_eq t i :
  i < length (prev t) -> i < length (next t) ->
  (forall h, head t = Some h -> h < length (prev t)) ->
  _link_to_head i t
  = (Ok tt, mkTable (capacity t) (keys t) (vals t) (state t)
              (link_prev (prev t) i (head t)) (link_next (next t) i (head t))
              (Some i) (Some (default i (tail t))) (size t)).
Proof.
  destruct t as [cap ks vs st pv nx hd tl sz]. cbn. intros Hp Hn Hh.
  unfold _link_to_head, bind, store, gets, set_head, set_tail, ret.
  cbn. rewrite !decide_True by done. cbn.
  destruct hd as [h|]; cbn.
  - rewrite decide_True by (rewrite length_insert; by apply Hh). cbn.
    by destruct tl.
  - by destruct tl.
Qed.

Lemma _unlink_eq t i p n :
  prev t !! i = Some p -> next t !! i = Some n ->
  (forall p', p = Some p' -> p' < length (next t)) ->
  (forall n', n = Some n' -> n' < length (prev t)) ->
  _unlink i t
  = (Ok tt, mkTable (capacity t) (keys t) (vals t) (state t)
              (unlink_prev (prev t) i p n) (unlink_next (next t) i p n)
              (match p with None => n | Some _ => head t end)
              (match n with None => p | Some _ => tail t end) (size t)).
Proof.
  destruct t as [cap ks vs st pv nx hd tl sz]. cbn. intros Hp Hn Hpl Hnl.
  pose proof (lookup_lt_Some _ _ _ Hp) as Hip.
  pose proof (lookup_lt_Some _ _ _ Hn) as Hin.
  unfold _unlink, bind, load. cbn. rewrite Hp. cbn. rewrite Hn.
  unfold unlink_prev, unlink_next, store, set_head, set_tail.
  destruct p as [p'|], n as [n'|]; cbn;
    rewrite ?decide_True by (rewrite ?length_insert; auto); cbn;
    rewrite ?decide_True by (rewrite ?length_insert; auto); cbn;
    rewrite ?decide_True by (rewrite ?length_insert; auto); cbn;
    rewrite ?decide_True by (rewrite ?length_insert; auto); done.
Qed.

Lemma recency_list_unique t l l' : recency_list t l -> recency_list t l' -> l = l'.
Proof.
  intros (Hh & _ & Hl) (Hh' & _ & Hl'). eapply linked_unique; [done..|]. congruence.
Qed.

Lemma recency_list_lt t l i :
  recency_list t l -> i ∈ l -> i < length (prev t) /\ i < length (next t).
Proof. intros (_ & _ & Hl). by eapply linked_lt. Qed.

Lemma unlink_recency t l1 i l2 :
  recency_list t (l1 ++ i :: l2) -> NoDup (l1 ++ i :: l2) ->
  exists t', _unlink i t = (Ok tt, t') /\ same_slots t t'
    /\ recency_list t' (l1 ++ l2).
Proof.
  intros Hrec Hnd. pose proof Hrec as (Hh & Ht & Hl).
  destruct (linked_middle _ _ _ _ _ _ Hl) as [Hp Hn]. cbn in Hp.
  assert (Hin : forall j, j ∈ l1 ++ i :: l2 ->
                  j < length (prev t) /\ j < length (next t))
    by (intros j; by apply recency_list_lt).
  erewrite _unlink_eq; [|done..| |].
  - eexists. split; [done|]. split; [|split; [|split]]; cbn.
    + unfold same_slots, unlink_prev, unlink_next. cbn.
      repeat split; destruct (last l1), (hd_error l2); cbn;
        by rewrite ?length_insert.
    + destruct l1 as [|a l1]; [done|]. cbn [last from_option] in *.
      destruct (last (a :: l1)) eqn:Hlast; [done|]. by apply last_None in Hlast.
    + destruct l2 as [|b l2]; cbn.
      * rewrite app_nil_r. by destruct (last l1).
      * rewrite Ht. by rewrite !last_app.
    + apply (linked_unlink _ _ None) in Hl; [|done..]. cbn in Hl.
      by destruct (last l1).
  - intros p' Hp'. apply Hin, elem_of_app. left.
    destruct (last l1) eqn:Hlast; cbn in Hp'; [|done].
    injection Hp' as ->. by eapply last_Some_elem_of.
  - intros n' Hn'. apply Hin, elem_of_app. right. right.
    destruct l2; cbn in Hn'; [done|]. injection Hn' as ->. by left.
Qed.

Lemma link_recency t l i :
  recency_list t l -> NoDup l -> i ∉ l ->
  i < length (prev t) -> i < length (next t) ->
  exists t', _link_to_head i t = (Ok tt, t') /\ same_slots t t'
    /\ recency_list t' (i :: l).
Proof.
  intros Hrec Hnd Hi Hip Hin. pose proof Hrec as (Hh & Ht & Hl).
  rewrite _link_to_head_eq; [|done..|].
  - eexists. split; [done|]. split; [|split; [|split]]; cbn.
    + unfold same_slots, link_prev, link_next. cbn.
      repeat split; destruct (head t); by rewrite ?length_insert.
    + done.
    + rewrite Ht. destruct l as [|a l]; [done|].
      rewrite last_cons_cons.
      destruct (last (a :: l)) eqn:Hlast; [done|]. by apply last_None in Hlast.
    + rewrite Hh. by apply linked_link.
  - intros h Hhd. eapply recency_list_lt; [done|].
    rewrite Hh in Hhd. destruct l; [done|]. injection Hhd as ->. by left.
Qed.

(** ** Splitting a list at an element *)

Lemma split_order {A} (l1 l2 l1' l2' : list A) x y :
  l1 ++ x :: l2 = l1' ++ y :: l2' -> x <> y -> y ∈ l1 \/ x ∈ l1'.
Proof.
  intros [(k & -> & Hk)|(k & -> & Hk)]%app_eq_inv Hne.
  - destruct k as [|z k]; simplify_eq/=. left. apply elem_of_app. right. by left.
  - destruct k as [|z k]; simplify_eq/=. right. apply elem_of_app. right. by left.
Qed.

Lemma split_unique {A} (l1 l2 l1' l2' : list A) x :
  NoDup (l1 ++ x :: l2) -> l1 ++ x :: l2 = l1' ++ x :: l2' -> l1 = l1' /\ l2 = l2'.
Proof.
  intros Hnd Heq. pose proof Heq as Heq'. rewrite Heq in Hnd.
  apply app_eq_inv in Heq as [(k & -> & Hk)|(k & -> & Hk)].
  - destruct k as [|z k]; simplify_eq/=; [by rewrite app_nil_r|].
    rewrite <- Heq', <- app_assoc in Hnd. cbn in Hnd.
    apply NoDup_app in Hnd as (_ & _ & Hnd). apply NoDup_cons in Hnd as [Hx _].
    exfalso. apply Hx, elem_of_app. right. by left.
  - destruct k as [|z k]; simplify_eq/=; [by rewrite app_nil_r|].
    rewrite <- app_assoc in Hnd. cbn in Hnd.
    apply NoDup_app in Hnd as (_ & _ & Hnd). apply NoDup_cons in Hnd as [Hx _].
    exfalso. apply Hx, elem_of_app. right. by left.
Qed.

(** ** What the probe finds under the invariant *)

Lemma first_deleted_Some t l d :
  first_deleted t l = Some d ->
  exists a b, l = a ++ d :: b /\ state t !! d = Some DELETED.
Proof.
  induction l as [|i l IH]; [done|]. rewrite first_deleted_cons.
  case_decide as Hd.
  - intros [= <-]. by exists [], l.
  - intros (a & b & -> & Hs)%IH. by exists (i :: a), b.
Qed.

Lemma first_deleted_None t l :
  first_deleted t l = None -> Forall (fun i => state t !! i <> Some DELETED) l.
Proof.
  induction l as [|i l IH]; [done|]. rewrite first_deleted_cons.
  case_decide as Hd; [done|]. intros ?%IH. by constructor.
Qed.

Lemma passed_not_holds t key i : passed t key i -> ~ holds t key i.
Proof. intros [Hd|(_ & k & Hk & Hne)] [Ho Hkey]; congruence. Qed.

Lemma holds_lt t key i : wf t -> holds t key i -> i < capacity t.
Proof.
  intros (_ & _ & _ & Hs & _) [Ho _]. rewrite <- Hs. by eapply lookup_lt_Some.
Qed.

Lemma probe_absent_empty t key l1 i l2 :
  Inv t -> probe_path t key = l1 ++ i :: l2 -> Forall (passed t key) l1 ->
  state t !! i = Some EMPTY -> forall i', ~ holds t key i'.
Proof.
  intros HI Hpath Hl1 He i' Hh.
  destruct (list_elem_of_split (probe_path t key) i') as (l1' & l2' & Hpath').
  { apply probe_path_elem. eapply holds_lt; [apply HI|done]. }
  assert (i <> i') by (intros ->; destruct Hh; congruence).
  rewrite Hpath in Hpath'.
  destruct (split_order _ _ _ _ _ _ Hpath') as [Hin|Hin]; [done|..].
  - eapply passed_not_holds; [|done]. by eapply Forall_forall in Hl1.
  - pose proof (inv_path t HI key i' l1' l2' Hh) as Hne.
    rewrite Hpath in Hne. specialize (Hne Hpath').
    by eapply Forall_forall in Hne.
Qed.

Lemma probe_absent_cycled t key :
  Inv t -> Forall (passed t key) (probe_path t key) -> forall i', ~ holds t key i'.
Proof.
  intros HI Hall i' Hh. eapply passed_not_holds; [|done].
  eapply Forall_forall in Hall; [done|].
  apply probe_path_elem. eapply holds_lt; [apply HI|done].
Qed.

Lemma probe_Inv t key : Inv t -> probe_view t key (_probe key t).
Proof.
  intros HI. rewrite _probe_eq.
  destruct (probe_traced_ok t key (inv_wf t HI)) as (r & -> & Hr). cbn.
  destruct Hr as [l1 i l2 Hpath Hl1 Hh|l1 i l2 Hpath Hl1 He|Hall]; cbn.
  - by apply view_found.
  - pose proof (probe_absent_empty t key l1 i l2 HI Hpath Hl1 He) as Habs.
    destruct (first_deleted t l1) as [d|] eqn:Hd; cbn.
    + apply first_deleted_Some in Hd as (a & b & -> & Hd).
      rewrite <- app_assoc in Hpath. cbn in Hpath.
      apply Forall_app in Hl1 as [Ha _].
      eapply view_free; eauto.
    + eapply view_free; eauto.
  - pose proof (probe_absent_cycled t key HI Hall) as Habs.
    destruct (first_deleted t (probe_path t key)) as [d|] eqn:Hd.
    + apply first_deleted_Some in Hd as (a & b & Hpath & Hd).
      rewrite Hpath in Hall. apply Forall_app in Hall as [Ha _].
      eapply view_free; eauto.
    + apply view_full; [done|]. intros i Hi%(probe_path_elem t key).
      apply first_deleted_None in Hd.
      eapply Forall_forall in Hd; [|done]. eapply Forall_forall in Hall; [|done].
      by destruct Hall as [?|[? _]].
Qed.

Lemma probe_present t key i :
  Inv t -> holds t key i -> _probe key t = (Ok (Some i, None), t).
Proof.
  intros HI Hh. pose proof (probe_Inv t key HI) as Hv.
  inversion Hv as [i0 Hh0 Heq|j l1 l2 Habs|Habs]; [|by destruct (Habs i)..].
  by rewrite (inv_uniq t HI key i i0).
Qed.

(** ** Running the monad *)

Lemma bind_ok {A B} (m : M A) (k : A -> M B) t a t' :
  m t = (Ok a, t') -> bind m k t = k a t'.
Proof. unfold bind. by intros ->. Qed.

Lemma store_ok {A} (f : FixedHashTable -> list A) upd i x t :
  i < length (f t) -> store f upd i x t = (Ok tt, upd (fun l => <[i:=x]> l) t).
Proof. intros Hi. unfold store. by rewrite decide_True. Qed.

Lemma load_ok {A} (f : FixedHashTable -> list A) i x t :
  f t !! i = Some x -> load f i t = (Ok x, t).
Proof. intros Hi. unfold load. by rewrite Hi. Qed.

(** ** [_move_to_head] *)

Lemma move_recency t l1 i l2 :
  recency_list t (l1 ++ i :: l2) -> NoDup (l1 ++ i :: l2) ->
  exists t', _move_to_head i t = (Ok tt, t') /\ same_slots t t'
    /\ recency_list t' (i :: l1 ++ l2).
Proof.
  intros Hrec Hnd. unfold _move_to_head, bind, gets. case_decide as Hhd.
  - exists t. split; [done|]. split; [by repeat split|].
    destruct l1 as [|a l1]; [done|]. exfalso.
    destruct Hrec as (Hh & _). rewrite Hh in Hhd. cbn in Hhd.
    injection Hhd as ->. cbn in Hnd. apply NoDup_cons in Hnd as [Ha _].
    apply Ha, elem_of_app. right. by left.
  - destruct (unlink_recency t l1 i l2 Hrec Hnd) as (t1 & -> & Hs1 & Hrec1).
    assert (Hnd1 : NoDup (l1 ++ l2) /\ i ∉ l1 ++ l2).
    { apply NoDup_app in Hnd as (H1 & H2 & [H3 H4]%NoDup_cons). split.
      - apply NoDup_app. repeat split; [done| |done].
        intros x Hx Hx2. apply (H2 x Hx). by right.
      - intros [Hi|Hi]%elem_of_app; [|done]. apply (H2 i Hi). by left. }
    destruct Hnd1 as [Hnd1 Hi1].
    destruct (recency_list_lt t (l1 ++ i :: l2) i Hrec) as [Hip Hin].
    { apply elem_of_app. right. by left. }
    destruct Hs1 as (Hc & Hk & Hv & Hst & Hsz & Hlp & Hln).
    destruct (link_recency t1 (l1 ++ l2) i Hrec1 Hnd1 Hi1) as (t2 & -> & Hs2 & Hrec2);
      [lia..|].
    exists t2. split; [done|]. split; [|done].
    destruct Hs2 as (Hc2 & Hk2 & Hv2 & Hst2 & Hsz2 & Hlp2 & Hln2).
    repeat split; congruence.
Qed.

(** ** The mutating operations on a table that satisfies the invariant *)

Lemma insert_found t key v i :
  Inv t -> holds t key i ->
  exists t', insert key v t = (Ok tt, t')
    /\ capacity t' = capacity t /\ keys t' = keys t /\ state t' = state t
    /\ vals t' = <[i:=Some v]> (vals t) /\ size t' = size t
    /\ length (prev t') = length (prev t) /\ length (next t') = length (next t)
    /\ forall l1 l2,
         recency_list t (l1 ++ i :: l2) -> recency_list t' (i :: l1 ++ l2).
Proof.
  intros HI Hh. unfold insert. erewrite bind_ok by (by apply probe_present).
  destruct (inv_wf t HI) as (Hc & Hlk & Hlv & Hls & Hlp & Hln).
  pose proof (holds_lt t key i (inv_wf t HI) Hh) as Hi.
  erewrite bind_ok by (apply store_ok; lia).
  destruct (inv_recency t HI) as (l & Hrec & Hnd & Hocc & Hsz).
  destruct (list_elem_of_split l i) as (l1 & l2 & ->); [apply Hocc, Hh|].
  destruct (move_recency (with_vals (fun l => <[i:=Some v]> l) t) l1 i l2)
    as (t2 & -> & Hs & Hrec2); [done..|].
  destruct Hs as (Hc2 & Hk2 & Hv2 & Hst2 & Hsz2 & Hlp2 & Hln2). cbn in *.
  exists t2. split_and!; try done.
  intros l1' l2' Hrec'.
  pose proof (recency_list_unique t _ _ Hrec Hrec') as Heq.
  by apply split_unique in Heq as [<- <-].
Qed.

Lemma insert_free t key v j :
  Inv t -> _probe key t = (Ok (None, Some j), t) ->
  j < capacity t -> state t !! j <> Some OCCUPIED ->
  exists t', insert key v t = (Ok tt, t')
    /\ capacity t' = capacity t /\ keys t' = <[j:=Some key]> (keys t)
    /\ state t' = <[j:=OCCUPIED]> (state t)
    /\ vals t' = <[j:=Some v]> (vals t) /\ size t' = (size t + 1)%Z
    /\ length (prev t') = length (prev t) /\ length (next t') = length (next t)
    /\ forall l, recency_list t l -> recency_list t' (j :: l).
Proof.
  intros HI Hprobe Hj Hst. unfold insert. erewrite bind_ok by done.
  destruct (inv_wf t HI) as (Hc & Hlk & Hlv & Hls & Hlp & Hln).
  erewrite bind_ok by (apply store_ok; lia).
  erewrite bind_ok by (apply store_ok; cbn; lia).
  erewrite bind_ok by (apply store_ok; cbn; lia).
  destruct (inv_recency t HI) as (l & Hrec & Hnd & Hocc & Hsz).
  match goal with |- context [bind (_link_to_head j) _ ?t3] =>
    destruct (link_recency t3 l j) as (t4 & Hlink & Hs & Hrec4)
  end; [done|done|by rewrite Hocc|cbn; lia..|].
  erewrite bind_ok by done.
  destruct Hs as (Hc2 & Hk2 & Hv2 & Hst2 & Hsz2 & Hlp2 & Hln2). cbn in *.
  eexists. split; [done|]. cbn. split_and!; try done; [congruence|].
  intros l' Hrec'. by rewrite <- (recency_list_unique t _ _ Hrec Hrec').
Qed.

Lemma insert_full t key v :
  _probe key t = (Ok (None, None), t) -> insert key v t = (Raise RuntimeError, t).
Proof. intros Hprobe. unfold insert. by erewrite bind_ok by done. Qed.

Lemma remove_found t key i :
  Inv t -> holds t key i ->
  exists t', remove key t = (Ok tt, t')
    /\ capacity t' = capacity t /\ keys t' = <[i:=None]> (keys t)
    /\ state t' = <[i:=DELETED]> (state t)
    /\ vals t' = <[i:=None]> (vals t) /\ size t' = (size t - 1)%Z
    /\ length (prev t') = length (prev t) /\ length (next t') = length (next t)
    /\ forall l1 l2,
         recency_list t (l1 ++ i :: l2) -> recency_list t' (l1 ++ l2).
Proof.
  intros HI Hh. unfold remove. erewrite bind_ok by (by apply probe_present). cbn.
  destruct (inv_wf t HI) as (Hc & Hlk & Hlv & Hls & Hlp & Hln).
  pose proof (holds_lt t key i (inv_wf t HI) Hh) as Hi.
  destruct (inv_recency t HI) as (l & Hrec & Hnd & Hocc & Hsz).
  destruct (list_elem_of_split l i) as (l1 & l2 & ->); [apply Hocc, Hh|].
  destruct (unlink_recency t l1 i l2 Hrec Hnd) as (t1 & Hun & Hs & Hrec1).
  destruct Hs as (Hc2 & Hk2 & Hv2 & Hst2 & Hsz2 & Hlp2 & Hln2).
  erewrite bind_ok by done.
  erewrite bind_ok by (apply store_ok; rewrite Hk2; lia).
  erewrite bind_ok by (apply store_ok; cbn; rewrite Hv2; lia).
  erewrite bind_ok by (apply store_ok; cbn; rewrite Hst2; lia).
  eexists. split; [done|]. cbn. split_and!; try done; try congruence.
  intros l1' l2' Hrec'.
  pose proof (recency_list_unique t _ _ Hrec Hrec') as Heq.
  by apply split_unique in Heq as [<- <-].
Qed.

Lemma remove_absent t key :
  Inv t -> (forall i, ~ holds t key i) -> remove key t = (Raise (KeyError key), t).
Proof.
  intros HI Habs. unfold remove. pose proof (probe_Inv t key HI) as Hv.
  inversion Hv as [i Hh Heq|j l1 l2 _ _ _ _ Heq|_ _ Heq];
    [by destruct (Habs i)|..]; by erewrite bind_ok by done.
Qed.

(** ** The invariant is preserved *)

Lemma probe_path_ext t t' key :
  capacity t' = capacity t -> probe_path t' key = probe_path t key.
Proof. intros Hc. unfold probe_path, start_of. by rewrite Hc. Qed.

Lemma Inv_init c t : __init__ c = Ok t -> Inv t.
Proof.
  unfold __init__. case_decide as Hc; [done|]. intros [= <-].
  assert (Hl : forall {A} (x : A), length (replicate (Z.to_nat c) x) = Z.to_nat c)
    by (intros; apply length_replicate).
  split; cbn.
  - unfold wf. cbn. rewrite !Hl. split_and!; [lia|done..].
  - intros i k [-> _]%lookup_replicate. split; [by intros []|].
    by intros [[=] _]%lookup_replicate.
  - intros i v [-> _]%lookup_replicate. split; [by intros []|].
    by intros [[=] _]%lookup_replicate.
  - intros key i j [[[=] _]%lookup_replicate _].
  - intros key i l1 l2 [[[=] _]%lookup_replicate _].
  - exists []. split_and!; [by repeat split|apply NoDup_nil_2| |done].
    intros i. split; [by intros ?%elem_of_nil|].
    by intros [[=] _]%lookup_replicate.
Qed.

Lemma Inv_insert_found t t' key v i :
  Inv t -> holds t key i -> insert key v t = (Ok tt, t') -> Inv t'.
Proof.
  intros HI Hh Hins.
  destruct (insert_found t key v i HI Hh)
    as (t2 & Heq & Hc & Hk & Hst & Hv & Hsz & Hlp & Hln & Hrec).
  rewrite Hins in Heq. injection Heq as <-.
  destruct (inv_wf t HI) as (Hc0 & Hlk & Hlv & Hls & Hlp0 & Hln0).
  pose proof (holds_lt t key i (inv_wf t HI) Hh) as Hi.
  destruct Hh as [Ho Hkey].
  split.
  - unfold wf. rewrite Hc, Hk, Hst, Hv, Hlp, Hln, length_insert. by split_and!.
  - rewrite Hk, Hst. apply (inv_keys t HI).
  - rewrite Hv, Hst. intros j x Hx.
    destruct (decide (i = j)) as [<-|Hne].
    + rewrite list_lookup_insert_eq in Hx by lia. by injection Hx as <-.
    + rewrite list_lookup_insert_ne in Hx by done. by apply (inv_vals t HI).
  - unfold holds. rewrite Hk, Hst. apply (inv_uniq t HI).
  - unfold holds. intros key' j l1 l2. rewrite (probe_path_ext t t') by done.
    rewrite Hk, Hst. apply (inv_path t HI).
  - destruct (inv_recency t HI) as (l & Hl & Hnd & Hocc & Hlen).
    destruct (list_elem_of_split l i) as (l1 & l2 & ->); [by apply Hocc|].
    exists (i :: l1 ++ l2).
    assert (Hperm : i :: l1 ++ l2 ≡ₚ l1 ++ i :: l2) by apply Permutation_middle.
    split_and!.
    + by apply Hrec.
    + by rewrite Hperm.
    + intros j. rewrite Hperm, Hst. apply Hocc.
    + by rewrite Hperm, Hsz.
Qed.

Lemma Inv_insert_free t t' key v j l1 l2 :
  Inv t -> _probe key t = (Ok (None, Some j), t) ->
  (forall i, ~ holds t key i) ->
  probe_path t key = l1 ++ j :: l2 -> Forall (passed t key) l1 ->
  state t !! j = Some EMPTY \/ state t !! j = Some DELETED ->
  insert key v t = (Ok tt, t') -> Inv t'.
Proof.
  intros HI Hprobe Habs Hpath Hl1 Hj Hins.
  assert (Hjo : state t !! j <> Some OCCUPIED) by (destruct Hj; congruence).
  destruct (inv_wf t HI) as (Hc0 & Hlk & Hlv & Hls & Hlp0 & Hln0).
  assert (Hjlt : j < capacity t).
  { rewrite <- Hls. destruct Hj; by eapply lookup_lt_Some. }
  destruct (insert_free t key v j HI Hprobe Hjlt Hjo)
    as (t2 & Heq & Hc & Hk & Hst & Hv & Hsz & Hlp & Hln & Hrec).
  rewrite Hins in Heq. injection Heq as <-.
  assert (Hholds : forall key' a, holds t' key' a ->
            (a = j /\ key' = key) \/ (a <> j /\ holds t key' a)).
  { intros key' a [Ho Hkey]. rewrite Hst in Ho. rewrite Hk in Hkey.
    destruct (decide (j = a)) as [<-|Hne].
    - rewrite list_lookup_insert_eq in Hkey by lia. left. split; congruence.
    - rewrite list_lookup_insert_ne in Ho by done.
      rewrite list_lookup_insert_ne in Hkey by done. right. by repeat split. }
  assert (Hmono : forall a, state t !! a <> Some EMPTY -> state t' !! a <> Some EMPTY).
  { intros a Ha. rewrite Hst. destruct (decide (j = a)) as [<-|Hne].
    - by rewrite list_lookup_insert_eq by lia.
    - by rewrite list_lookup_insert_ne. }
  split.
  - unfold wf. rewrite Hc, Hk, Hst, Hv, Hlp, Hln, !length_insert. by split_and!.
  - rewrite Hk, Hst. intros a x Hx.
    destruct (decide (j = a)) as [<-|Hne].
    + rewrite list_lookup_insert_eq in Hx by lia.
      rewrite list_lookup_insert_eq by lia. by injection Hx as <-.
    + rewrite list_lookup_insert_ne in Hx by done.
      rewrite list_lookup_insert_ne by done. by apply (inv_keys t HI).
  - rewrite Hv, Hst. intros a x Hx.
    destruct (decide (j = a)) as [<-|Hne].
    + rewrite list_lookup_insert_eq in Hx by lia.
      rewrite list_lookup_insert_eq by lia. by injection Hx as <-.
    + rewrite list_lookup_insert_ne in Hx by done.
      rewrite list_lookup_insert_ne by done. by apply (inv_vals t HI).
  - intros key' a b [[-> ->]|[Ha Hha]]%Hholds [[-> Hkb]|[Hb Hhb]]%Hholds;
      [done|by destruct (Habs b)|subst; by destruct (Habs a)|].
    by apply (inv_uniq t HI key').
  - intros key' a l1' l2' [[-> ->]|[Ha Hha]]%Hholds Hpath';
      rewrite (probe_path_ext t t') in Hpath' by done.
    + rewrite Hpath in Hpath'.
      apply split_unique in Hpath' as [<- <-];
        [|rewrite <- Hpath; apply NoDup_probe_path].
      eapply Forall_impl; [done|]. intros a Ha. apply Hmono.
      destruct Ha as [Ha|[Ha _]]; congruence.
    + eapply Forall_impl; [by eapply (inv_path t HI)|]. apply Hmono.
  - destruct (inv_recency t HI) as (l & Hl & Hnd & Hocc & Hlen).
    exists (j :: l). split_and!.
    + by apply Hrec.
    + apply NoDup_cons. split; [by rewrite Hocc|done].
    + intros a. rewrite Hst, elem_of_cons, Hocc.
      destruct (decide (j = a)) as [<-|Hne].
      * rewrite list_lookup_insert_eq by lia. intuition congruence.
      * rewrite list_lookup_insert_ne by done. intuition congruence.
    + rewrite Hsz, Hlen. cbn. lia.
Qed.

Lemma Inv_remove_found t t' key i :
  Inv t -> holds t key i -> remove key t = (Ok tt, t') -> Inv t'.
Proof.
  intros HI Hh Hrem.
  destruct (remove_found t key i HI Hh)
    as (t2 & Heq & Hc & Hk & Hst & Hv & Hsz & Hlp & Hln & Hrec).
  rewrite Hrem in Heq. injection Heq as <-.
  destruct (inv_wf t HI) as (Hc0 & Hlk & Hlv & Hls & Hlp0 & Hln0).
  pose proof (holds_lt t key i (inv_wf t HI) Hh) as Hi.
  assert (Hholds : forall key' a, holds t' key' a -> a <> i /\ holds t key' a).
  { intros key' a [Ho Hkey]. rewrite Hst in Ho. rewrite Hk in Hkey.
    destruct (decide (i = a)) as [<-|Hne].
    - by rewrite list_lookup_insert_eq in Ho by lia.
    - rewrite list_lookup_insert_ne in Ho by done.
      rewrite list_lookup_insert_ne in Hkey by done. by repeat split. }
  assert (Hmono : forall a, state t !! a <> Some EMPTY -> state t' !! a <> Some EMPTY).
  { intros a Ha. rewrite Hst. destruct (decide (i = a)) as [<-|Hne].
    - by rewrite list_lookup_insert_eq by lia.
    - by rewrite list_lookup_insert_ne. }
  split.
  - unfold wf. rewrite Hc, Hk, Hst, Hv, Hlp, Hln, !length_insert. by split_and!.
  - rewrite Hk, Hst. intros a x Hx.
    destruct (decide (i = a)) as [<-|Hne].
    + rewrite list_lookup_insert_eq in Hx by lia.
      rewrite list_lookup_insert_eq by lia. injection Hx as <-.
      split; [by intros []|done].
    + rewrite list_lookup_insert_ne in Hx by done.
      rewrite list_lookup_insert_ne by done. by apply (inv_keys t HI).
  - rewrite Hv, Hst. intros a x Hx.
    destruct (decide (i = a)) as [<-|Hne].
    + rewrite list_lookup_insert_eq in Hx by lia.
      rewrite list_lookup_insert_eq by lia. injection Hx as <-.
      split; [by intros []|done].
    + rewrite list_lookup_insert_ne in Hx by done.
      rewrite list_lookup_insert_ne by done. by apply (inv_vals t HI).
  - intros key' a b [_ Ha]%Hholds [_ Hb]%Hholds. by apply (inv_uniq t HI key').
  - intros key' a l1' l2' [_ Ha]%Hholds Hpath'.
    rewrite (probe_path_ext t t') in Hpath' by done.
    eapply Forall_impl; [by eapply (inv_path t HI)|]. apply Hmono.
  - destruct (inv_recency t HI) as (l & Hl & Hnd & Hocc & Hlen).
    destruct (list_elem_of_split l i) as (l1 & l2 & ->); [apply Hocc, Hh|].
    exists (l1 ++ l2).
    apply NoDup_app in Hnd as (Hn1 & Hn12 & [Hi2 Hn2]%NoDup_cons).
    split_and!.
    + by apply Hrec.
    + apply NoDup_app. split_and!; [done| |done].
      intros x Hx Hx2. apply (Hn12 x Hx). by right.
    + intros a. rewrite Hst. specialize (Hocc a).
      rewrite elem_of_app, elem_of_cons in Hocc. rewrite elem_of_app.
      destruct (decide (i = a)) as [<-|Hne].
      * rewrite list_lookup_insert_eq by lia. split; [|done].
        intros [Hx|Hx]; [|done]. destruct (Hn12 i Hx). by left.
      * rewrite list_lookup_insert_ne by done. intuition congruence.
    + rewrite Hsz, Hlen, !length_app. cbn. lia.
Qed.

(** ** Read-only operations *)

Lemma get_frame t key : snd (get key t) = t.
Proof.
  unfold get, bind. rewrite _probe_eq.
  destruct (fst (probe_traced key t)) as [[s [[f|] ins]]|e|]; cbn; try done.
  unfold load. by destruct (vals t !! f).
Qed.

Lemma entry_frame (i : nat) t :
  snd ((k <~ load keys i; v <~ load vals i; ret (k, v)) t) = t.
Proof.
  unfold bind, load, ret. destruct (keys t !! i); [|done]. by destruct (vals t !! i).
Qed.

Lemma get_last_frame t : snd (get_last t) = t.
Proof.
  unfold get_last. unfold bind at 1. unfold gets.
  destruct (head t); [apply entry_frame|done].
Qed.

Lemma get_first_frame t : snd (get_first t) = t.
Proof.
  unfold get_first. unfold bind at 1. unfold gets.
  destruct (tail t); [apply entry_frame|done].
Qed.

Lemma items_from_frame l t : snd (items_from l t) = t.
Proof.
  induction l as [|i l IH]; [done|]. cbn [items_from].
  unfold bind at 1. unfold load at 1. destruct (state t !! i) as [st|]; [|done].
  case_decide; [|done].
  unfold bind at 1. unfold load at 1. destruct (keys t !! i); [|done].
  unfold bind at 1. unfold load at 1. destruct (vals t !! i); [|done].
  unfold bind, ret. by destruct (items_from l t) as [[r|e|] t'].
Qed.

Lemma items_frame t : snd (items t) = t.
Proof. unfold items, bind, gets. apply items_from_frame. Qed.

(** ** Every reachable table satisfies the invariant *)

Lemma Inv_insert t key v : Inv t -> Inv (snd (insert key v t)).
Proof.
  intros HI. pose proof (probe_Inv t key HI) as Hv.
  inversion Hv as [i Hh Heq|j l1 l2 Habs Hpath Hl1 Hj Heq|Habs Hocc Heq];
    symmetry in Heq.
  - destruct (insert_found t key v i HI Hh) as (t' & Hins & _).
    rewrite Hins. by eapply Inv_insert_found.
  - assert (exists t', insert key v t = (Ok tt, t')) as [t' Hins].
    { destruct (insert_free t key v j HI Heq) as (t' & Hins & _); [| |by eauto].
      - apply probe_path_lt with key. rewrite Hpath.
        apply elem_of_app. right. by left.
      - destruct Hj; congruence. }
    rewrite Hins. by eapply Inv_insert_free.
  - by rewrite insert_full.
Qed.

Lemma holds_dec t key : Inv t -> (exists i, holds t key i) \/ (forall i, ~ holds t key i).
Proof.
  intros HI. pose proof (probe_Inv t key HI) as Hv.
  inversion Hv; [left; by eexists|by right..].
Qed.

Lemma Inv_remove t key : Inv t -> Inv (snd (remove key t)).
Proof.
  intros HI. destruct (holds_dec t key HI) as [[i Hh]|Habs].
  - destruct (remove_found t key i HI Hh) as (t' & Hrem & _).
    rewrite Hrem. by eapply Inv_remove_found.
  - by rewrite remove_absent.
Qed.

Lemma Inv_exec o t : Inv t -> Inv (exec o t).
Proof.
  intros HI. destruct o; unfold exec.
  - by apply Inv_insert.
  - by rewrite get_frame.
  - by apply Inv_remove.
  - by rewrite get_last_frame.
  - by rewrite get_first_frame.
  - by rewrite items_frame.
Qed.

Lemma reachable_Inv t : reachable t -> Inv t.
Proof.
  induction 1 as [c t Hinit|o t _ IH]; [by eapply Inv_init|by apply Inv_exec].
Qed.

(** ** The invariant gives the data-model invariant *)

Lemma occupied_count (st : list slot_state) (l : list nat) :
  NoDup l -> (forall i, i ∈ l <-> st !! i = Some OCCUPIED) ->
  length l = length (filter (fun s => s = OCCUPIED) st).
Proof.
  revert l. induction st as [|s st IH] using rev_ind; intros l Hnd Hocc.
  - destruct l as [|i l]; [done|].
    pose proof (proj1 (Hocc i) ltac:(by left)) as Hi. by rewrite lookup_nil in Hi.
  - rewrite filter_app, length_app.
    assert (Hlast : (st ++ [s]) !! length st = Some s).
    { rewrite lookup_app_r by lia. by rewrite Nat.sub_diag. }
    assert (Hold : forall i, st !! i = Some OCCUPIED ->
              i <> length st /\ (st ++ [s]) !! i = Some OCCUPIED).
    { intros i Hs. pose proof (lookup_lt_Some _ _ _ Hs) as Hlt.
      split; [lia|]. by rewrite lookup_app_l by lia. }
    assert (Hnew : forall i, (st ++ [s]) !! i = Some OCCUPIED ->
              i <> length st -> st !! i = Some OCCUPIED).
    { intros i Hs Hi. pose proof (lookup_lt_Some _ _ _ Hs) as Hlt.
      rewrite length_app in Hlt. cbn in Hlt.
      by rewrite lookup_app_l in Hs by lia. }
    destruct (decide (s = OCCUPIED)) as [->|Hs].
    + destruct (list_elem_of_split l (length st)) as (a & b & ->); [by apply Hocc|].
      apply NoDup_app in Hnd as (Hna & Hab & [Hb Hnb]%NoDup_cons).
      rewrite length_app. cbn. rewrite <- (IH (a ++ b)).
      * rewrite length_app, decide_True by done. cbn. lia.
      * apply NoDup_app. split_and!; [done| |done].
        intros x Hx Hx2. apply (Hab x Hx). by right.
      * intros i. split.
        -- intros Hi. apply Hnew.
           ++ apply Hocc. rewrite elem_of_app, elem_of_cons.
              apply elem_of_app in Hi. tauto.
           ++ intros ->. apply elem_of_app in Hi as [Hi|Hi]; [|done].
              apply (Hab _ Hi). by left.
        -- intros [Hne Hi%Hocc]%Hold.
           rewrite elem_of_app, elem_of_cons in Hi. rewrite elem_of_app. tauto.
    + rewrite filter_cons_False by done. cbn. rewrite Nat.add_0_r. apply IH; [done|].
      intros i. rewrite Hocc. split.
      * intros Hi. apply Hnew; [done|]. intros ->. congruence.
      * by intros [_ Hi]%Hold.
Qed.

Lemma Inv_DataInv t : Inv t -> DataInv t.
Proof.
  intros HI. destruct (inv_wf t HI) as (Hc & Hlk & Hlv & Hls & Hlp & Hln).
  destruct (inv_recency t HI) as (l & Hrec & Hnd & Hocc & Hsz).
  pose proof (occupied_count (state t) l Hnd Hocc) as Hcount.
  split.
  - apply HI.
  - pose proof (length_filter (fun s => s = OCCUPIED) (state t)). lia.
  - by rewrite Hsz, Hcount.
  - intros i Hi. destruct (lookup_lt_is_Some_2 (keys t) i) as [k Hk]; [lia|].
    rewrite <- (inv_keys t HI i k Hk), Hk. split.
    + intros [k' [= ->]]. by eexists.
    + intros [k' ->]. by eexists.
  - intros i Hi. destruct (lookup_lt_is_Some_2 (vals t) i) as [v Hv]; [lia|].
    rewrite <- (inv_vals t HI i v Hv), Hv. split.
    + intros [v' [= ->]]. by eexists.
    + intros [v' ->]. by eexists.
  - apply HI.
  - by exists l.
  - destruct Hrec as (Hh & Ht & _). rewrite Hh, Ht, Hsz.
    destruct l as [|a l]; [done|]. split; [by intros [[=] _]|]. cbn. lia.
Qed.

(** ** Lookups *)

Lemma get_present t key i x :
  Inv t -> holds t key i -> vals t !! i = Some x -> get key t = (Ok x, t).
Proof.
  intros HI Hh Hx. unfold get. erewrite bind_ok by (by apply probe_present).
  cbn. by apply load_ok.
Qed.

Lemma get_absent t key :
  Inv t -> (forall i, ~ holds t key i) -> get key t = (Raise (KeyError key), t).
Proof.
  intros HI Habs. unfold get. pose proof (probe_Inv t key HI) as Hv.
  inversion Hv as [i Hh Heq|j l1 l2 _ _ _ _ Heq|_ _ Heq];
    [by destruct (Habs i)|..]; by erewrite bind_ok by done.
Qed.

Lemma get_last_eq t i k v :
  head t = Some i -> keys t !! i = Some k -> vals t !! i = Some v ->
  get_last t = (Ok (k, v), t).
Proof.
  intros Hh Hk Hv. unfold get_last, bind, gets, load, ret. by rewrite Hh, Hk, Hv.
Qed.

(** ** The claims about [_probe] *)

Lemma first_deleted_none_intro t l :
  (forall i, state t !! i <> Some DELETED) -> first_deleted t l = None.
Proof.
  intros Hno. induction l as [|i l IH]; [done|].
  rewrite first_deleted_cons. by rewrite decide_False.
Qed.

Lemma _probe_scan t key r :
  capacity t <> 0 -> scan t key (probe_path t key) None [] = Ok r ->
  _probe key t = (Ok (snd r), t).
Proof.
  intros Hc Hs. rewrite _probe_eq, probe_traced_scan by done. cbn. by rewrite Hs.
Qed.

(** C1.  [_probe] is the linear probe of the specification.  The probe
    path of a key starts at its hash (masked to 31 bits, as [_idx] does)
    mod capacity and advances by +1 mod capacity.  Walking that path past
    tombstones and slots OCCUPIED by other keys, the probe
    - returns [(i, None)] at the first OCCUPIED slot [i] that holds the key;
    - returns [(None, t)] at the first EMPTY slot [i], [t] being the first
      DELETED slot walked past if there is one and [i] otherwise;
    - returns [(None, first tombstone)] when it has walked past every slot,
      which is [(None, None)] if no slot is DELETED.
    In each case the table is left as it was, and on a table whose lists
    have [capacity] entries every probe ends in one of these three ways. *)
Theorem probe_linear_probing t key (Hcap : capacity t <> 0) :
  (forall j, j < capacity t ->
     probe_path t key !! j = Some ((start_of t key + j) mod capacity t))
  /\ (forall l1 i l2,
        probe_path t key = l1 ++ i :: l2 -> Forall (passed t key) l1 ->
        holds t key i ->
        _probe key t = (Ok (Some i, None), t))
  /\ (forall l1 i l2,
        probe_path t key = l1 ++ i :: l2 -> Forall (passed t key) l1 ->
        state t !! i = Some EMPTY ->
        _probe key t = (Ok (None, Some (default i (first_deleted t l1))), t))
  /\ (Forall (passed t key) (probe_path t key) ->
        _probe key t = (Ok (None, first_deleted t (probe_path t key)), t)
        /\ ((forall i, state t !! i <> Some DELETED) ->
            _probe key t = (Ok (None, None), t)))
  /\ (wf t ->
        exists r, probe_traced key t = (Ok r, t) /\ probe_result t key r
                  /\ _probe key t = (Ok (snd r), t)).
Proof.
  split_and!.
  - intros j Hj. unfold probe_path.
    by rewrite list_lookup_fmap, lookup_seq_lt.
  - intros l1 i l2 Hpath Hl1 Hh.
    rewrite (_probe_scan t key (l1 ++ [i], (Some i, None))); [done..|].
    rewrite Hpath. by apply scan_found.
  - intros l1 i l2 Hpath Hl1 He.
    rewrite (_probe_scan t key
               (l1 ++ [i], (None, Some (default i (first_deleted t l1)))));
      [done..|].
    rewrite Hpath. by apply scan_empty.
  - intros Hall.
    assert (Hp : _probe key t = (Ok (None, first_deleted t (probe_path t key)), t)).
    { rewrite (_probe_scan t key
                 (probe_path t key, (None, first_deleted t (probe_path t key))));
        [done..|].
      by apply scan_cycled. }
    split; [done|]. intros Hno. by rewrite Hp, first_deleted_none_intro.
  - intros Hwf. destruct (probe_traced_ok t key Hwf) as (r & Hr & Hres).
    exists r. split_and!; [done..|]. by rewrite _probe_eq, Hr.
Qed.

(** C3.  [_probe] always terminates.  [capacity] iterations of the loop
    are all it can take: any larger budget gives the same result, which is
    never [Diverge]; the slots it inspects are pairwise distinct, at most
    [capacity] of them, whatever the states of the slots; with no EMPTY
    slot and no match it inspects the probe path once around and stops.
    So [insert], [get] and [remove] terminate on every table and every
    input. *)
Theorem probe_terminates t key :
  (forall fuel, capacity t <= fuel -> probe_fuel fuel key t = probe_traced key t)
  /\ fst (probe_traced key t) <> Diverge
  /\ (forall seen r, fst (probe_traced key t) = Ok (seen, r) ->
        NoDup seen /\ length seen <= capacity t
        /\ forall i, i ∈ seen -> i < capacity t)
  /\ (capacity t <> 0 -> Forall (passed t key) (probe_path t key) ->
        exists r, fst (probe_traced key t) = Ok (probe_path t key, r))
  /\ (forall value, fst (insert key value t) <> Diverge)
  /\ fst (get key t) <> Diverge
  /\ fst (remove key t) <> Diverge.
Proof.
  split_and!.
  - intros fuel. apply probe_fuel_enough.
  - apply terminates_probe_traced.
  - intros seen r. rewrite probe_traced_eq. cbn. case_decide; [done|].
    intros (l1 & l2 & Hpath & ->)%scan_trace. cbn.
    pose proof (NoDup_probe_path t key) as Hnd.
    pose proof (length_probe_path t key) as Hlen.
    rewrite Hpath in Hnd, Hlen. rewrite length_app in Hlen.
    apply NoDup_app in Hnd as (Hnd & _). split_and!; [done|lia|].
    intros i Hi. apply (probe_path_lt t key). rewrite Hpath.
    apply elem_of_app. by left.
  - intros Hc Hall. rewrite probe_traced_scan, scan_cycled by done. by eexists.
  - intros value. apply terminates_insert.
  - apply terminates_get.
  - apply terminates_remove.
Qed.

(** C8.  [get] mutates nothing: whatever the table and the key, the table
    after the call is the table before it, and so [get_last] answers the
    same before and after. *)
Theorem get_no_mutation t key :
  snd (get key t) = t /\ get_last (snd (get key t)) = get_last t.
Proof. by rewrite get_frame. Qed.

(** ** What the public operations do to a reachable table *)

Lemma reachable_run_ops ops t : reachable t -> reachable (run_ops ops t).
Proof.
  revert t. induction ops as [|o ops IH]; intros t Hr; [done|].
  cbn. apply IH. by constructor.
Qed.

Lemma recency_list_head t i l : recency_list t (i :: l) -> head t = Some i.
Proof. by intros (Hh & _). Qed.

(** The three ways [insert] can go, by what the probe finds. *)
Lemma insert_cases t key v :
  Inv t ->
  (exists i t', holds t key i /\ insert key v t = (Ok tt, t')
     /\ keys t' = keys t /\ state t' = state t
     /\ vals t' = <[i:=Some v]> (vals t) /\ size t' = size t
     /\ head t' = Some i)
  \/ (exists j t', (forall i, ~ holds t key i)
        /\ j < capacity t /\ state t !! j <> Some OCCUPIED
        /\ _probe key t = (Ok (None, Some j), t)
        /\ insert key v t = (Ok tt, t')
        /\ keys t' = <[j:=Some key]> (keys t) /\ state t' = <[j:=OCCUPIED]> (state t)
        /\ vals t' = <[j:=Some v]> (vals t) /\ size t' = (size t + 1)%Z
        /\ head t' = Some j)
  \/ ((forall i, ~ holds t key i)
        /\ (forall i, i < capacity t -> state t !! i = Some OCCUPIED)
        /\ _probe key t = (Ok (None, None), t)
        /\ insert key v t = (Raise RuntimeError, t)).
Proof.
  intros HI. pose proof (probe_Inv t key HI) as Hv.
  destruct (inv_recency t HI) as (l & Hrec & Hnd & Hocc & Hsz).
  inversion Hv as [i Hh Heq|j l1 l2 Habs Hpath Hl1 Hj Heq|Habs Hfull Heq];
    symmetry in Heq.
  - left. destruct (insert_found t key v i HI Hh)
      as (t' & Hins & Hc & Hk & Hst & Hvl & Hsize & _ & _ & Hr).
    destruct (list_elem_of_split l i) as (a & b & ->); [apply Hocc, Hh|].
    exists i, t'. split_and!; try done. eapply recency_list_head. by apply Hr.
  - right. left.
    assert (Hjlt : j < capacity t).
    { apply probe_path_lt with key. rewrite Hpath. apply elem_of_app. right. by left. }
    assert (Hjo : state t !! j <> Some OCCUPIED) by (destruct Hj; congruence).
    destruct (insert_free t key v j HI Heq Hjlt Hjo)
      as (t' & Hins & Hc & Hk & Hst & Hvl & Hsize & _ & _ & Hr).
    exists j, t'. split_and!; try done. eapply recency_list_head. by apply Hr.
  - right. right. split_and!; try done. by apply insert_full.
Qed.

Lemma holds_insert t key key' v a :
  Inv t -> holds (snd (insert key' v t)) key a -> key = key' \/ holds t key a.
Proof.
  intros HI.
  destruct (inv_wf t HI) as (Hc0 & Hlk & Hlv & Hls & Hlp0 & Hln0).
  destruct (insert_cases t key' v HI)
    as [(i & t' & Hh & -> & Hk & Hst & _)
       |[(j & t' & Habs & Hj & Hjo & _ & -> & Hk & Hst & _)
        |(_ & _ & _ & ->)]]; cbn; unfold holds.
  - rewrite Hk, Hst. by right.
  - rewrite Hk, Hst. intros [Ho Hkey].
    destruct (decide (j = a)) as [<-|Hne].
    + rewrite list_lookup_insert_eq in Hkey by lia. left. congruence.
    + rewrite list_lookup_insert_ne in Ho by done.
      rewrite list_lookup_insert_ne in Hkey by done. by right.
  - by right.
Qed.

Lemma holds_remove t key key' a :
  Inv t -> holds (snd (remove key' t)) key a -> key <> key' /\ holds t key a.
Proof.
  intros HI. destruct (holds_dec t key' HI) as [[i Hh]|Habs].
  - destruct (inv_wf t HI) as (Hc0 & Hlk & Hlv & Hls & Hlp0 & Hln0).
    pose proof (holds_lt t key' i (inv_wf t HI) Hh) as Hi.
    destruct (remove_found t key' i HI Hh) as (t' & -> & _ & Hk & Hst & _).
    cbn. unfold holds at 1. rewrite Hk, Hst. intros [Ho Hkey].
    destruct (decide (i = a)) as [<-|Hne].
    + by rewrite list_lookup_insert_eq in Ho by lia.
    + rewrite list_lookup_insert_ne in Ho by done.
      rewrite list_lookup_insert_ne in Hkey by done.
      split; [|done]. intros ->. apply Hne. by eapply (inv_uniq t HI).
  - rewrite remove_absent by done. cbn. intros Hh. split; [|done].
    intros ->. by destruct (Habs a).
Qed.

Lemma absent_exec t key o :
  Inv t -> (forall i, ~ holds t key i) -> (forall v, o <> OpInsert key v) ->
  forall i, ~ holds (exec o t) key i.
Proof.
  intros HI Habs Ho i. destruct o as [key' v|key'|key'| | |]; unfold exec.
  - intros [->|Hh]%holds_insert; [by destruct (Ho v)|by destruct (Habs i)|done].
  - rewrite get_frame. apply Habs.
  - intros [_ Hh]%holds_remove; [by destruct (Habs i)|done].
  - rewrite get_last_frame. apply Habs.
  - rewrite get_first_frame. apply Habs.
  - rewrite items_frame. apply Habs.
Qed.

Lemma absent_run_ops t key ops :
  Inv t -> (forall i, ~ holds t key i) ->
  Forall (fun o => forall v, o <> OpInsert key v) ops ->
  Inv (run_ops ops t) /\ forall i, ~ holds (run_ops ops t) key i.
Proof.
  intros HI Habs Hops. revert t HI Habs.
  induction Hops as [|o ops Ho _ IH]; intros t HI Habs; [done|].
  cbn. apply IH; [by apply Inv_exec|by apply absent_exec].
Qed.

(** ** The claims about the public operations *)

(** C2.  Every public operation preserves the data-model invariant:
    [__init__] establishes it, and from any table a program can hold,
    [insert], [get], [remove], [get_last], [get_first] and [items] each
    leave a table that satisfies it, whether they return or raise. *)
Theorem operations_preserve_invariant t (Hr : reachable t) :
  (forall c t0, __init__ c = Ok t0 -> DataInv t0)
  /\ DataInv t
  /\ (forall key value, DataInv (snd (insert key value t)))
  /\ (forall key, DataInv (snd (get key t)))
  /\ (forall key, DataInv (snd (remove key t)))
  /\ DataInv (snd (get_last t))
  /\ DataInv (snd (get_first t))
  /\ DataInv (snd (items t)).
Proof.
  pose proof (reachable_Inv t Hr) as HI. split_and!.
  - intros c t0 H0. by eapply Inv_DataInv, Inv_init.
  - by apply Inv_DataInv.
  - intros key value. by apply Inv_DataInv, Inv_insert.
  - intros key. rewrite get_frame. by apply Inv_DataInv.
  - intros key. by apply Inv_DataInv, Inv_remove.
  - rewrite get_last_frame. by apply Inv_DataInv.
  - rewrite get_first_frame. by apply Inv_DataInv.
  - rewrite items_frame. by apply Inv_DataInv.
Qed.

(** C4.  [insert] raises [RuntimeError] (table full) exactly when the
    probe returns [(None, None)], that is exactly when the key is in no
    slot and every slot is OCCUPIED; and then the table is unchanged. *)
Theorem insert_table_full t key value (Hr : reachable t) :
  (fst (insert key value t) = Raise RuntimeError
   <-> _probe key t = (Ok (None, None), t))
  /\ (fst (insert key value t) = Raise RuntimeError
      <-> (forall i, ~ holds t key i)
          /\ (forall i, i < capacity t -> state t !! i = Some OCCUPIED))
  /\ (fst (insert key value t) = Raise RuntimeError ->
      snd (insert key value t) = t).
Proof.
  pose proof (reachable_Inv t Hr) as HI.
  destruct (insert_cases t key value HI)
    as [(i & t' & Hh & Hins & _)
       |[(j & t' & Habs & Hj & Hjo & Hprobe & Hins & _)
        |(Habs & Hfull & Hprobe & Hins)]]; rewrite Hins; cbn.
  - split_and!; [split; [done|] |split; [done|] |done].
    + rewrite (probe_present t key i) by done. by intros [=].
    + intros [Habs _]. by destruct (Habs i).
  - split_and!; [split; [done|] |split; [done|] |done].
    + rewrite Hprobe. by intros [=].
    + intros [_ Hfull]. by destruct Hjo; apply Hfull.
  - by split_and!.
Qed.

(** C5.  Round trip: if [insert key value] does not raise table-full,
    the [get key] that follows returns [value]. *)
Theorem insert_get_round_trip t key value (Hr : reachable t)
    (Hok : fst (insert key value t) <> Raise RuntimeError) :
  fst (get key (snd (insert key value t))) = Ok (Some value).
Proof.
  pose proof (reachable_Inv t Hr) as HI.
  pose proof (Inv_insert t key value HI) as HI'.
  destruct (inv_wf t HI) as (Hc0 & Hlk & Hlv & Hls & Hlp0 & Hln0).
  destruct (insert_cases t key value HI)
    as [(i & t' & Hh & Hins & Hk & Hst & Hv & _)
       |[(j & t' & Habs & Hj & Hjo & Hprobe & Hins & Hk & Hst & Hv & _)
        |(_ & _ & _ & Hins)]]; rewrite Hins in *; cbn [fst snd] in *; [| |done].
  - pose proof (holds_lt t key i (inv_wf t HI) Hh) as Hi.
    rewrite (get_present t' key i (Some value)); [done|done| |].
    + unfold holds. by rewrite Hk, Hst.
    + rewrite Hv. apply list_lookup_insert_eq. lia.
  - rewrite (get_present t' key j (Some value)); [done|done| |].
    + unfold holds. rewrite Hk, Hst. split; apply list_lookup_insert_eq; lia.
    + rewrite Hv. apply list_lookup_insert_eq. lia.
Qed.

(** C6.  After a successful [insert key value], on the update path as on
    the new-key path, the slot that holds [key] is the head of the recency
    list and [get_last] returns [(key, value)]. *)
Theorem insert_most_recent t key value (Hr : reachable t)
    (Hok : fst (insert key value t) = Ok tt) :
  (exists i, head (snd (insert key value t)) = Some i
             /\ holds (snd (insert key value t)) key i)
  /\ fst (get_last (snd (insert key value t))) = Ok (Some key, Some value).
Proof.
  pose proof (reachable_Inv t Hr) as HI.
  destruct (inv_wf t HI) as (Hc0 & Hlk & Hlv & Hls & Hlp0 & Hln0).
  destruct (insert_cases t key value HI)
    as [(i & t' & Hh & Hins & Hk & Hst & Hv & _ & Hhd)
       |[(j & t' & Habs & Hj & Hjo & Hprobe & Hins & Hk & Hst & Hv & _ & Hhd)
        |(_ & _ & _ & Hins)]]; rewrite Hins in *; cbn [fst snd] in *; [| |done].
  - pose proof (holds_lt t key i (inv_wf t HI) Hh) as Hi.
    assert (Hh' : holds t' key i) by (unfold holds; by rewrite Hk, Hst).
    split; [by exists i|].
    rewrite (get_last_eq t' i (Some key) (Some value)); [done|done|apply Hh'|].
    rewrite Hv. apply list_lookup_insert_eq. lia.
  - assert (Hh' : holds t' key j).
    { unfold holds. rewrite Hk, Hst. split; apply list_lookup_insert_eq; lia. }
    split; [by exists j|].
    rewrite (get_last_eq t' j (Some key) (Some value)); [done|done|apply Hh'|].
    rewrite Hv. apply list_lookup_insert_eq. lia.
Qed.

(** C10.  [insert] of a key that is present succeeds and leaves [size] as
    it was, however full the table is; table-full is only ever raised for
    a key that is in no slot. *)
Theorem insert_present_succeeds t key value (Hr : reachable t) :
  ((exists i, holds t key i) ->
     fst (insert key value t) = Ok tt
     /\ size (snd (insert key value t)) = size t)
  /\ (fst (insert key value t) = Raise RuntimeError -> forall i, ~ holds t key i).
Proof.
  pose proof (reachable_Inv t Hr) as HI.
  destruct (insert_cases t key value HI)
    as [(i & t' & Hh & Hins & _ & _ & _ & Hsz & _)
       |[(j & t' & Habs & _ & _ & _ & Hins & _)
        |(Habs & _ & _ & Hins)]]; rewrite Hins; cbn.
  - by split.
  - split; [|done]. intros [i Hh]. by destruct (Habs i).
  - split; [|done]. intros [i Hh]. by destruct (Habs i).
Qed.

Lemma Inv_recency_list t l :
  Inv t -> recency_list t l ->
  NoDup l /\ forall i, i ∈ l <-> state t !! i = Some OCCUPIED.
Proof.
  intros HI Hl. destruct (inv_recency t HI) as (l0 & Hrec & Hnd & Hocc & _).
  by rewrite (recency_list_unique t l l0).
Qed.

Lemma occupied_entry t j :
  Inv t -> state t !! j = Some OCCUPIED ->
  exists kj vj, entry t j = Some (Some kj, Some vj).
Proof.
  intros HI Ho. destruct (inv_wf t HI) as (Hc0 & Hlk & Hlv & Hls & Hlp0 & Hln0).
  pose proof (lookup_lt_Some _ _ _ Ho) as Hj.
  destruct (lookup_lt_is_Some_2 (keys t) j) as [k Hk]; [lia|].
  destruct (lookup_lt_is_Some_2 (vals t) j) as [v Hv]; [lia|].
  destruct (proj2 (inv_keys t HI j k Hk) Ho) as [kj ->].
  destruct (proj2 (inv_vals t HI j v Hv) Ho) as [vj ->].
  exists kj, vj. unfold entry. by rewrite Hk, Hv.
Qed.

(** C7.  [remove key], [key] living in slot [i] of a table whose recency
    list is [l], returns and takes slot [i] out of the list, the rest
    keeping its order and its entries.  In particular when [i] was the
    head, [get_last] then returns the entry that was next-most-recent; and
    when [i] was neither head nor tail the order of all the others is as
    before. *)
Theorem remove_recency_order t key i l (Hr : reachable t)
    (Hl : recency_list t l) (Hh : holds t key i) :
  fst (remove key t) = Ok tt
  /\ (forall j rest, l = i :: j :: rest ->
        exists kj vj, entry t j = Some (Some kj, Some vj)
          /\ fst (get_last (snd (remove key t))) = Ok (Some kj, Some vj))
  /\ (forall l1 l2, l = l1 ++ i :: l2 ->
        recency_list (snd (remove key t)) (l1 ++ l2)
        /\ forall j, j ∈ l1 ++ l2 -> entry (snd (remove key t)) j = entry t j).
Proof.
  pose proof (reachable_Inv t Hr) as HI.
  destruct (Inv_recency_list t l HI Hl) as [Hnd Hocc].
  destruct (remove_found t key i HI Hh)
    as (t' & Hrem & Hc & Hk & Hst & Hv & Hsz & _ & _ & Hrec).
  rewrite Hrem. cbn [fst snd].
  assert (Hentry : forall j, j <> i -> entry t' j = entry t j).
  { intros j Hj. unfold entry. rewrite Hk, Hv.
    by rewrite !list_lookup_insert_ne. }
  split_and!; [done| |].
  - intros j rest ->.
    apply NoDup_cons in Hnd as [Hi _].
    assert (j <> i) by (intros ->; apply Hi; by left).
    destruct (occupied_entry t j HI) as (kj & vj & He).
    { apply Hocc. right. by left. }
    exists kj, vj. split; [done|].
    rewrite <- Hentry in He by done. unfold entry in He.
    destruct (keys t' !! j) as [k|] eqn:Hkj; [|done].
    destruct (vals t' !! j) as [v|] eqn:Hvj; [|done].
    injection He as -> ->.
    erewrite get_last_eq; [done| |done..].
    eapply recency_list_head. by apply (Hrec []).
  - intros l1 l2 ->. split; [by apply Hrec|].
    intros j Hj. apply Hentry. intros ->.
    apply NoDup_app in Hnd as (_ & H12 & [H2 _]%NoDup_cons).
    apply elem_of_app in Hj as [Hj|Hj]; [|done]. apply (H12 _ Hj). by left.
Qed.

(** C9.  Stale-slot safety.  Once [remove key] has succeeded, whatever
    operations follow that do not insert [key] again, when an [insert] of
    a different key [key2] reuses the tombstoned slot [i], that slot is
    OCCUPIED by [key2] and [get key] raises [KeyError key]. *)
Theorem stale_slot_safety t key i ops key2 value2 (Hr : reachable t)
    (Hh : holds t key i)
    (Hops : Forall (fun o => forall v, o <> OpInsert key v) ops)
    (Hne : key2 <> key) :
  let t1 := run_ops ops (snd (remove key t)) in
  fst (remove key t) = Ok tt
  /\ state (snd (remove key t)) !! i = Some DELETED
  /\ (fst (_probe key2 t1) = Ok (None, Some i) ->
      fst (insert key2 value2 t1) = Ok tt
      /\ holds (snd (insert key2 value2 t1)) key2 i
      /\ fst (get key (snd (insert key2 value2 t1))) = Raise (KeyError key)).
Proof.
  intros t1. pose proof (reachable_Inv t Hr) as HI.
  destruct (inv_wf t HI) as (Hc0 & Hlk & Hlv & Hls & Hlp0 & Hln0).
  pose proof (holds_lt t key i (inv_wf t HI) Hh) as Hi.
  assert (Habs0 : forall a, ~ holds (snd (remove key t)) key a).
  { intros a [? _]%holds_remove; done. }
  destruct (absent_run_ops (snd (remove key t)) key ops) as [HI1 Habs1];
    [by apply Inv_remove|done..|]. fold t1 in HI1, Habs1.
  destruct (remove_found t key i HI Hh) as (t' & Hrem & _ & _ & Hst & _).
  split_and!.
  - by rewrite Hrem.
  - rewrite Hrem. cbn. rewrite Hst. apply list_lookup_insert_eq. lia.
  - intros Hprobe.
    destruct (inv_wf t1 HI1) as (Hc1 & Hlk1 & Hlv1 & Hls1 & _).
    assert (Habs2 : forall a, ~ holds (snd (insert key2 value2 t1)) key a).
    { intros a [->|Ha]%holds_insert; [done|by destruct (Habs1 a)|done]. }
    pose proof (Inv_insert t1 key2 value2 HI1) as HI2.
    destruct (insert_cases t1 key2 value2 HI1)
      as [(i' & t2 & Hh' & Hins & _)
         |[(j & t2 & _ & Hj & _ & Hp & Hins & Hk & Hst2 & _)
          |(_ & _ & Hp & _)]].
    + rewrite (probe_present t1 key2 i') in Hprobe by done. done.
    + rewrite Hp in Hprobe. injection Hprobe as ->.
      rewrite Hins in *. cbn [fst snd] in *. split_and!; [done| |].
      * unfold holds. rewrite Hk, Hst2. split; apply list_lookup_insert_eq; lia.
      * by rewrite get_absent.
    + rewrite Hp in Hprobe. done.
Qed.

(** ** The contents of a table *)

Lemma walk_linked pv nx p l fuel :
  linked pv nx p l -> length l <= fuel -> walk nx fuel (hd_error l) = l.
Proof.
  revert p fuel. induction l as [|i l IH]; intros p fuel Hl Hlen.
  - by destruct fuel.
  - destruct fuel as [|fuel]; cbn in Hlen; [lia|].
    destruct Hl as (_ & Hn & Hl). cbn. rewrite Hn. cbn. f_equal.
    eapply IH; [done|lia].
Qed.

Lemma Inv_length_le t l :
  Inv t -> recency_list t l -> length l <= capacity t.
Proof.
  intros HI Hl. destruct (inv_recency t HI) as (l0 & Hrec & Hnd & Hocc & Hsz).
  rewrite (recency_list_unique t l l0) by done.
  rewrite (occupied_count (state t) l0 Hnd Hocc).
  destruct (inv_wf t HI) as (_ & _ & _ & <- & _). apply length_filter.
Qed.

Lemma Inv_recency t l : Inv t -> recency_list t l -> recency t = l.
Proof.
  intros HI Hl. pose proof (Inv_length_le t l HI Hl) as Hlen.
  destruct Hl as (Hh & _ & Hl). unfold recency. rewrite Hh.
  by eapply walk_linked.
Qed.

Lemma omap_Forall2 {A B} (f : A -> option B) l al :
  Forall2 (fun i kv => f i = Some kv) l al -> omap f l = al.
Proof. induction 1 as [|i kv l al Hi _ IH]; [done|]. cbn. by rewrite Hi, IH. Qed.

Lemma view_contents t l al : Inv t -> view t l al -> contents t = al.
Proof.
  intros HI [Hl Hal]. unfold contents. rewrite (Inv_recency t l) by done.
  by apply omap_Forall2.
Qed.

Lemma occupied_slot_pair t i :
  Inv t -> state t !! i = Some OCCUPIED -> is_Some (slot_pair t i).
Proof.
  intros HI Ho. destruct (occupied_entry t i HI Ho) as (k & v & He).
  unfold entry in He. unfold slot_pair.
  destruct (keys t !! i) as [k'|]; [|done]. destruct (vals t !! i) as [v'|]; [|done].
  by injection He as -> ->.
Qed.

Lemma slot_pair_Some t i k v :
  slot_pair t i = Some (k, v)
  <-> keys t !! i = Some (Some k) /\ vals t !! i = Some (Some v).
Proof.
  unfold slot_pair. destruct (keys t !! i) as [[k'|]|], (vals t !! i) as [[v'|]|];
    split; (intros [= -> ->] || intros [[=] [=]]); by subst.
Qed.

Lemma Inv_view t :
  Inv t ->
  exists l al, view t l al /\ NoDup l
    /\ (forall i, i ∈ l <-> state t !! i = Some OCCUPIED)
    /\ size t = Z.of_nat (length l).
Proof.
  intros HI. destruct (inv_recency t HI) as (l & Hrec & Hnd & Hocc & Hsz).
  assert (Hall : Forall (fun i => is_Some (slot_pair t i)) l).
  { apply Forall_forall. intros i Hi. apply occupied_slot_pair; [done|].
    by apply Hocc. }
  assert (exists al, Forall2 (fun i kv => slot_pair t i = Some kv) l al) as [al Hal].
  { clear -Hall. induction Hall as [|i l [kv Hi] _ [al IH]]; [by exists []|].
    exists (kv :: al). by constructor. }
  by exists l, al.
Qed.

Lemma view_elem_of t l al k v :
  Inv t -> view t l al ->
  (k, v) ∈ al <-> exists i, holds t k i /\ vals t !! i = Some (Some v).
Proof.
  intros HI [Hl Hal]. destruct (Inv_recency_list t l HI Hl) as [Hnd Hocc]. split.
  - intros (n & Hn)%list_elem_of_lookup_1.
    destruct (Forall2_lookup_r _ _ _ _ _ Hal Hn) as (i & Hi & Hp).
    apply slot_pair_Some in Hp as [Hk Hv]. exists i. split; [|done].
    split; [|done]. apply Hocc. by eapply list_elem_of_lookup_2.
  - intros (i & [Ho Hk] & Hv).
    apply Hocc in Ho as (n & Hn)%list_elem_of_lookup_1.
    destruct (Forall2_lookup_l _ _ _ _ _ Hal Hn) as (kv & Hkv & Hp).
    assert (slot_pair t i = Some (k, v)) as Hp' by (by apply slot_pair_Some).
    rewrite Hp' in Hp. injection Hp as <-. by eapply list_elem_of_lookup_2.
Qed.

Lemma view_keys_NoDup t l al : Inv t -> view t l al -> NoDup al.*1.
Proof.
  intros HI [Hl Hal]. destruct (Inv_recency_list t l HI Hl) as [Hnd Hocc].
  apply NoDup_alt. intros n m k Hn Hm.
  apply list_lookup_fmap_Some in Hn as ([k1 v1] & -> & Hn).
  apply list_lookup_fmap_Some in Hm as ([k2 v2] & Heq & Hm).
  cbn in Heq. subst k2.
  destruct (Forall2_lookup_r _ _ _ _ _ Hal Hn) as (i & Hi & [Hki _]%slot_pair_Some).
  destruct (Forall2_lookup_r _ _ _ _ _ Hal Hm) as (j & Hj & [Hkj _]%slot_pair_Some).
  assert (i = j) as <-.
  { apply (inv_uniq t HI k1); (split; [|done]); apply Hocc;
      by eapply list_elem_of_lookup_2. }
  by eapply NoDup_lookup.
Qed.

Lemma without_absent k (al : list (string * Z)) : k ∉ al.*1 -> without k al = al.
Proof.
  unfold without. induction al as [|[k' v'] al IH]; [done|].
  rewrite fmap_cons. intros Hk. rewrite filter_cons_True.
  - f_equal. apply IH. intros Hin. apply Hk. by right.
  - cbn. intros ->. apply Hk. by left.
Qed.

Lemma without_middle k v0 (al1 al2 : list (string * Z)) :
  NoDup (al1 ++ (k, v0) :: al2).*1 ->
  without k (al1 ++ (k, v0) :: al2) = al1 ++ al2.
Proof.
  rewrite fmap_app. cbn. intros (Hn1 & H12 & [Hk2 Hn2]%NoDup_cons)%NoDup_app.
  unfold without. rewrite filter_app, filter_cons_False by (cbn; tauto).
  fold (without k al1). fold (without k al2).
  rewrite !without_absent; [done..|].
  intros Hk. apply (H12 k Hk). by left.
Qed.

Lemma slot_pair_frame t t' x :
  keys t' !! x = keys t !! x -> vals t' !! x = vals t !! x ->
  slot_pair t' x = slot_pair t x.
Proof. intros Hk Hv. unfold slot_pair. by rewrite Hk, Hv. Qed.

Lemma Forall2_slot_pair_frame t t' l al :
  (forall x, x ∈ l -> slot_pair t' x = slot_pair t x) ->
  Forall2 (fun i kv => slot_pair t i = Some kv) l al ->
  Forall2 (fun i kv => slot_pair t' i = Some kv) l al.
Proof.
  intros Hsame Hal. induction Hal as [|i kv l al Hi _ IH]; constructor.
  - rewrite Hsame; [done|by left].
  - apply IH. intros x Hx. apply Hsame. by right.
Qed.

Lemma view_split t l1 i l2 al :
  view t (l1 ++ i :: l2) al ->
  exists al1 kv al2, al = al1 ++ kv :: al2 /\ slot_pair t i = Some kv
    /\ Forall2 (fun i kv => slot_pair t i = Some kv) l1 al1
    /\ Forall2 (fun i kv => slot_pair t i = Some kv) l2 al2.
Proof.
  intros [_ Hal].
  apply Forall2_app_inv_l in Hal as (al1 & al2' & H1 & H2 & ->).
  apply Forall2_cons_inv_l in H2 as (kv & al2 & Hi & H2 & ->).
  by exists al1, kv, al2.
Qed.

Lemma insert_contents_Inv t k v t' :
  Inv t -> insert k v t = (Ok tt, t') ->
  contents t' = (k, v) :: without k (contents t).
Proof.
  intros HI Hins.
  pose proof (Inv_insert t k v HI) as HI'. rewrite Hins in HI'. cbn in HI'.
  destruct (inv_wf t HI) as (Hc0 & Hlk & Hlv & Hls & Hlp0 & Hln0).
  destruct (Inv_view t HI) as (l & al & Hview & Hnd & Hocc & _).
  pose proof (view_keys_NoDup t l al HI Hview) as Hkeys.
  rewrite (view_contents t l al) by done.
  destruct (holds_dec t k HI) as [[i Hh]|Habs].
  - pose proof (holds_lt t k i (inv_wf t HI) Hh) as Hi.
    destruct (insert_found t k v i HI Hh)
      as (t2 & Heq & _ & Hk & _ & Hv & _ & _ & _ & Hrec).
    rewrite Hins in Heq. injection Heq as <-.
    destruct (list_elem_of_split l i) as (l1 & l2 & ->); [apply Hocc, Hh|].
    destruct (view_split t l1 i l2 al Hview) as (al1 & [k0 v0] & al2 & -> & Hp & H1 & H2).
    apply slot_pair_Some in Hp as [Hk0 _].
    destruct Hh as [_ Hkey]. rewrite Hkey in Hk0. injection Hk0 as <-.
    rewrite without_middle by done.
    apply (view_contents t' (i :: l1 ++ l2)); [done|].
    split; [apply Hrec, Hview|]. constructor.
    + apply slot_pair_Some. rewrite Hk, Hv. split; [done|].
      apply list_lookup_insert_eq. lia.
    + apply (Forall2_slot_pair_frame t); [|by apply Forall2_app].
      intros x Hx. apply slot_pair_frame; [by rewrite Hk|].
      rewrite Hv. apply list_lookup_insert_ne. intros ->.
      apply NoDup_app in Hnd as (_ & H12 & [Hi2 _]%NoDup_cons).
      apply elem_of_app in Hx as [Hx|Hx]; [|done]. apply (H12 _ Hx). by left.
  - destruct (insert_cases t k v HI)
      as [(i & _ & Hh & _)
         |[(j & t2 & _ & Hj & Hjo & Hprobe & _)
          |(_ & _ & _ & Hfull)]];
      [by destruct (Habs i)| |by rewrite Hfull in Hins].
    destruct (insert_free t k v j HI Hprobe Hj Hjo)
      as (t2' & Heq & _ & Hk & _ & Hv & _ & _ & _ & Hrec).
    rewrite Hins in Heq. injection Heq as <-.
    rewrite without_absent.
    + apply (view_contents t' (j :: l)); [done|].
      split; [apply Hrec, Hview|]. constructor.
      * apply slot_pair_Some. rewrite Hk, Hv.
        split; apply list_lookup_insert_eq; lia.
      * apply (Forall2_slot_pair_frame t); [|apply Hview].
        intros x Hx. assert (j <> x) by (intros ->; by apply Hjo, Hocc).
        apply slot_pair_frame; [rewrite Hk|rewrite Hv];
          by apply list_lookup_insert_ne.
    + intros ([k' v'] & -> & Hin)%list_elem_of_fmap.
      apply (view_elem_of t l al k' v' HI Hview) in Hin as (i & Hh & _).
      by destruct (Habs i).
Qed.

Lemma remove_contents_Inv t k t' :
  Inv t -> remove k t = (Ok tt, t') -> contents t' = without k (contents t).
Proof.
  intros HI Hrem.
  pose proof (Inv_remove t k HI) as HI'. rewrite Hrem in HI'. cbn in HI'.
  destruct (Inv_view t HI) as (l & al & Hview & Hnd & Hocc & _).
  pose proof (view_keys_NoDup t l al HI Hview) as Hkeys.
  rewrite (view_contents t l al) by done.
  destruct (holds_dec t k HI) as [[i Hh]|Habs];
    [|by rewrite remove_absent in Hrem].
  destruct (remove_found t k i HI Hh)
    as (t2 & Heq & _ & Hk & _ & Hv & _ & _ & _ & Hrec).
  rewrite Hrem in Heq. injection Heq as <-.
  destruct (list_elem_of_split l i) as (l1 & l2 & ->); [apply Hocc, Hh|].
  destruct (view_split t l1 i l2 al Hview) as (al1 & [k0 v0] & al2 & -> & Hp & H1 & H2).
  apply slot_pair_Some in Hp as [Hk0 _].
  destruct Hh as [_ Hkey]. rewrite Hkey in Hk0. injection Hk0 as <-.
  rewrite without_middle by done.
  apply (view_contents t' (l1 ++ l2)); [done|].
  split; [apply Hrec, Hview|].
  apply (Forall2_slot_pair_frame t); [|by apply Forall2_app].
  intros x Hx. assert (i <> x).
  { intros <-. apply NoDup_app in Hnd as (_ & H12 & [Hi2 _]%NoDup_cons).
    apply elem_of_app in Hx as [Hx|Hx]; [|done]. apply (H12 _ Hx). by left. }
  apply slot_pair_frame; [rewrite Hk|rewrite Hv]; by apply list_lookup_insert_ne.
Qed.

Lemma size_contents_Inv t : Inv t -> size t = Z.of_nat (length (contents t)).
Proof.
  intros HI. destruct (Inv_view t HI) as (l & al & Hview & _ & _ & Hsz).
  rewrite (view_contents t l al) by done. destruct Hview as [_ Hal].
  by rewrite <- (Forall2_length _ _ _ Hal).
Qed.

Lemma get_contents_Inv t k :
  Inv t ->
  (forall v, (k, v) ∈ contents t -> get k t = (Ok (Some v), t))
  /\ (k ∉ (contents t).*1 -> get k t = (Raise (KeyError k), t)).
Proof.
  intros HI. destruct (Inv_view t HI) as (l & al & Hview & _).
  rewrite (view_contents t l al) by done. split.
  - intros v (i & Hh & Hv)%(view_elem_of t l al k v HI Hview).
    by apply (get_present t k i).
  - intros Hk. apply get_absent; [done|]. intros i Hh.
    destruct (occupied_entry t i HI (proj1 Hh)) as (k' & v & He).
    apply Hk, list_elem_of_fmap. exists (k, v). split; [done|].
    apply (view_elem_of t l al k v HI Hview). exists i. split; [done|].
    unfold entry in He. destruct (keys t !! i); [|done].
    by destruct (vals t !! i); simplify_eq.
Qed.

Lemma get_first_eq t i k v :
  tail t = Some i -> keys t !! i = Some k -> vals t !! i = Some v ->
  get_first t = (Ok (k, v), t).
Proof.
  intros Hh Hk Hv. unfold get_first, bind, gets, load, ret. by rewrite Hh, Hk, Hv.
Qed.

Lemma Forall2_last {A B} (P : A -> B -> Prop) l k :
  Forall2 P l k ->
  match last l, last k with
  | Some x, Some y => P x y
  | None, None => True
  | _, _ => False
  end.
Proof.
  induction 1 as [|x y l k Hxy Hlk IH]; [done|].
  rewrite !last_cons. by destruct (last l), (last k).
Qed.

Lemma get_last_contents_Inv t :
  Inv t ->
  get_last t
  = (match contents t with
     | [] => Raise (KeyError "empty")
     | (k, v) :: _ => Ok (Some k, Some v)
     end, t).
Proof.
  intros HI. destruct (Inv_view t HI) as (l & al & Hview & _).
  rewrite (view_contents t l al) by done. destruct Hview as [(Hh & _) Hal].
  destruct Hal as [|i [k v] l al Hi _].
  - unfold get_last, bind, gets. by rewrite Hh.
  - apply slot_pair_Some in Hi as [Hk Hv]. by apply (get_last_eq t i).
Qed.

Lemma get_first_contents_Inv t :
  Inv t ->
  get_first t
  = (match last (contents t) with
     | None => Raise (KeyError "empty")
     | Some (k, v) => Ok (Some k, Some v)
     end, t).
Proof.
  intros HI. destruct (Inv_view t HI) as (l & al & Hview & _).
  rewrite (view_contents t l al) by done. destruct Hview as [(_ & Ht & _) Hal].
  pose proof (Forall2_last _ _ _ Hal) as Hlast.
  destruct (last l) as [i|], (last al) as [[k v]|]; try done.
  - apply slot_pair_Some in Hlast as [Hk Hv]. by apply (get_first_eq t i).
  - unfold get_first, bind, gets. by rewrite Ht.
Qed.

(** ** [items] *)

Lemma items_from_ok t l :
  wf t -> Forall (fun i => i < capacity t) l ->
  items_from l t
  = (Ok ((fun i => (default None (keys t !! i), default None (vals t !! i)))
           <$> filter (fun i => state t !! i = Some OCCUPIED) l), t).
Proof.
  intros (_ & Hlk & Hlv & Hls & _) Hl.
  induction Hl as [|i l Hi _ IH]; [done|]. cbn [items_from].
  destruct (lookup_lt_is_Some_2 (state t) i) as [st Hst]; [lia|].
  destruct (lookup_lt_is_Some_2 (keys t) i) as [k Hk]; [lia|].
  destruct (lookup_lt_is_Some_2 (vals t) i) as [v Hv]; [lia|].
  erewrite bind_ok by (by apply load_ok). case_decide as Ho.
  - subst st. erewrite bind_ok by (by apply load_ok).
    erewrite bind_ok by (by apply load_ok).
    erewrite bind_ok by done. rewrite filter_cons_True by done.
    cbn. by rewrite Hk, Hv.
  - rewrite IH, filter_cons_False; [done|]. rewrite Hst. by intros [=].
Qed.

Lemma items_contents_Inv t :
  Inv t ->
  exists its, items t = (Ok its, t)
    /\ its ≡ₚ (fun kv => (Some (fst kv), Some (snd kv))) <$> contents t.
Proof.
  intros HI. destruct (Inv_view t HI) as (l & al & Hview & Hnd & Hocc & _).
  rewrite (view_contents t l al) by done.
  destruct (inv_wf t HI) as (Hc & Hlk & Hlv & Hls & _).
  unfold items, bind, gets. rewrite items_from_ok.
  - eexists. split; [done|].
    assert (Hperm : filter (fun i => state t !! i = Some OCCUPIED) (seq 0 (capacity t))
                    ≡ₚ l).
    { apply NoDup_Permutation; [apply NoDup_filter, NoDup_seq|done|].
      intros x. rewrite list_elem_of_filter, elem_of_seq, Hocc. split; [tauto|].
      intros Ho. split; [done|]. apply lookup_lt_Some in Ho. lia. }
    rewrite Hperm. destruct Hview as [_ Hal]. clear -Hal.
    induction Hal as [|i [k v] l al Hi _ IH]; [done|].
    apply slot_pair_Some in Hi as [Hk Hv]. cbn. by rewrite Hk, Hv, IH.
  - apply HI.
  - apply Forall_forall. intros i Hi%elem_of_seq. lia.
Qed.

(** ** When the table is full *)

Lemma filter_all_length {A} (P : A -> Prop) `{forall x, Decision (P x)} (l : list A) :
  length (filter P l) = length l <-> Forall P l.
Proof.
  induction l as [|x l IH]; [by split|].
  pose proof (length_filter P l). destruct (decide (P x)).
  - rewrite filter_cons_True by done. cbn. rewrite Forall_cons. split.
    + intros [= Hlen]. split; [done|by apply IH].
    + intros [_ Hl]. f_equal. by apply IH.
  - rewrite filter_cons_False by done. cbn. rewrite Forall_cons. split; [lia|tauto].
Qed.

Lemma full_iff_size t :
  Inv t ->
  (forall i, i < capacity t -> state t !! i = Some OCCUPIED)
  <-> size t = Z.of_nat (capacity t).
Proof.
  intros HI. destruct (inv_recency t HI) as (l & Hrec & Hnd & Hocc & Hsz).
  destruct (inv_wf t HI) as (_ & _ & _ & Hls & _).
  rewrite Hsz, (occupied_count (state t) l Hnd Hocc), <- Hls.
  rewrite Nat2Z.inj_iff, filter_all_length, Forall_lookup. split.
  - intros Hall i s Hs. pose proof (lookup_lt_Some _ _ _ Hs) as Hi.
    rewrite Hall in Hs by done. by injection Hs.
  - intros Hall i Hi. destruct (lookup_lt_is_Some_2 (state t) i Hi) as [s Hs].
    by rewrite Hs, (Hall i s Hs).
Qed.

Lemma insert_outcome_Inv t k v :
  Inv t ->
  (fst (insert k v t) = Raise RuntimeError
   /\ (k ∉ (contents t).*1) /\ size t = Z.of_nat (capacity t))
  \/ (fst (insert k v t) = Ok tt
      /\ (k ∈ (contents t).*1 \/ (size t < Z.of_nat (capacity t))%Z)).
Proof.
  intros HI. destruct (Inv_view t HI) as (l & al & Hview & _).
  pose proof (view_contents t l al HI Hview) as Hcont.
  pose proof (Inv_DataInv t HI) as HD.
  assert (Habsent : (forall i, ~ holds t k i) -> k ∉ (contents t).*1).
  { intros Habs ([k' v'] & -> & Hin)%list_elem_of_fmap. rewrite Hcont in Hin.
    apply (view_elem_of t l al k' v' HI Hview) in Hin as (i & Hh & _).
    by destruct (Habs i). }
  destruct (insert_cases t k v HI)
    as [(i & t' & Hh & Hins & _)
       |[(j & t' & Habs & Hj & Hjo & _ & Hins & _)
        |(Habs & Hfull & _ & Hins)]]; rewrite Hins; cbn [fst].
  - right. split; [done|]. left.
    destruct (occupied_entry t i HI (proj1 Hh)) as (k' & v' & He).
    apply list_elem_of_fmap. exists (k, v'). split; [done|]. rewrite Hcont.
    apply (view_elem_of t l al k v' HI Hview). exists i. split; [done|].
    unfold entry in He. destruct (keys t !! i); [|done].
    by destruct (vals t !! i); simplify_eq.
  - right. split; [done|]. right.
    destruct (di_size_bounds t HD) as [_ Hle].
    destruct (decide (size t = Z.of_nat (capacity t))) as [Heq|]; [|lia].
    pose proof (proj2 (full_iff_size t HI) Heq) as Hall. destruct Hjo. by apply Hall.
  - left. split_and!; [done|by apply Habsent|by apply full_iff_size].
Qed.

(** ** Counting words *)

Lemma remove_dups_snoc (l : list string) w :
  remove_dups (l ++ [w]) = filter (fun x => x <> w) (remove_dups l) ++ [w].
Proof.
  induction l as [|x l IH]; [done|]. cbn [app remove_dups]. rewrite IH.
  destruct (decide_rel elem_of x (l ++ [w])) as [H1|H1],
           (decide_rel elem_of x l) as [H2|H2].
  - done.
  - apply elem_of_app in H1 as [?|Hx%list_elem_of_singleton]; [done|]. subst x.
    by rewrite filter_cons_False by tauto.
  - destruct H1. apply elem_of_app. by left.
  - rewrite filter_cons_True; [done|]. intros ->.
    apply H1, elem_of_app. right. by left.
Qed.

Lemma occurrences_snoc w x words :
  occurrences x (words ++ [w])
  = (occurrences x words + (if decide (w = x) then 1 else 0))%Z.
Proof.
  unfold occurrences. rewrite filter_app, length_app, filter_cons, filter_nil.
  case_decide; cbn; lia.
Qed.

Lemma occurrences_absent w words : w ∉ words -> occurrences w words = 0%Z.
Proof.
  intros Hw. unfold occurrences.
  destruct (filter (fun x => x = w) words) as [|x l] eqn:Hf; [done|].
  assert (Hx : x ∈ filter (fun x => x = w) words) by (rewrite Hf; by left).
  apply list_elem_of_filter in Hx as [-> Hx]. done.
Qed.

Lemma without_fmap (f : string -> string * Z) w l :
  (forall x, fst (f x) = x) ->
  without w (f <$> l) = f <$> filter (fun x => x <> w) l.
Proof.
  intros Hf. unfold without. induction l as [|x l IH]; [done|].
  rewrite fmap_cons, !filter_cons, Hf, IH. by case_decide.
Qed.

Lemma tally_snoc words w :
  tally (words ++ [w])
  = (w, occurrences w (words ++ [w])) :: without w (tally words).
Proof.
  unfold tally. rewrite remove_dups_snoc, reverse_snoc, fmap_cons. f_equal.
  rewrite without_fmap, filter_reverse by done.
  apply list_fmap_ext. intros n x Hx.
  apply list_elem_of_lookup_2, elem_of_reverse, list_elem_of_filter in Hx as [Hne _].
  by rewrite occurrences_snoc, decide_False, Z.add_0_r.
Qed.

Lemma tally_keys words : (tally words).*1 = reverse (remove_dups words).
Proof. unfold tally. rewrite <- list_fmap_compose. apply list_fmap_id. Qed.

Lemma tally_elem_of words w c :
  (w, c) ∈ tally words <-> w ∈ words /\ c = occurrences w words.
Proof.
  unfold tally. rewrite list_elem_of_fmap. split.
  - intros (x & [= -> ->] & Hx). by rewrite elem_of_reverse, elem_of_remove_dups in Hx.
  - intros [Hw ->]. exists w. by rewrite elem_of_reverse, elem_of_remove_dups.
Qed.

Lemma length_tally words : length (tally words) = length (remove_dups words).
Proof. unfold tally. by rewrite length_fmap, length_reverse. Qed.

Lemma remove_dups_app_length (l k : list string) :
  length (remove_dups l) <= length (remove_dups (l ++ k)).
Proof.
  apply submseteq_length, NoDup_submseteq; [apply NoDup_remove_dups|].
  intros x. rewrite !elem_of_remove_dups, elem_of_app. tauto.
Qed.

(** One turn of the loop on a reachable table that holds the counts of the
    words seen so far. *)
Lemma count_word_spec t w seen :
  reachable t -> contents t = tally seen ->
  (count_word w t = Raised RuntimeError
   /\ (w ∉ seen) /\ length (remove_dups seen) = capacity t)
  \/ (exists t', count_word w t = Returned t' /\ reachable t'
        /\ contents t' = tally (seen ++ [w]) /\ capacity t' = capacity t).
Proof.
  intros Hr Hcont. pose proof (reachable_Inv t Hr) as HI.
  destruct (get_contents_Inv t w HI) as [Hget Hmiss].
  assert (Hcap : forall v, capacity (snd (insert w v t)) = capacity t).
  { intros v. destruct (insert_cases t w v HI)
      as [(i & t' & Hh & Hins & _)|[(j & t' & _ & Hj & Hjo & Hp & Hins & _)
                                   |(_ & _ & _ & Hins)]].
    - destruct (insert_found t w v i HI Hh) as (t2 & Heq & Hc & _).
      by rewrite Heq.
    - destruct (insert_free t w v j HI Hp Hj Hjo) as (t2 & Heq & Hc & _).
      by rewrite Heq.
    - by rewrite Hins. }
  assert (Hstep : forall v, v = occurrences w (seen ++ [w]) ->
            fst (insert w v t) = Ok tt ->
            exists t', insert w v t = (Ok tt, t') /\ reachable t'
              /\ contents t' = tally (seen ++ [w]) /\ capacity t' = capacity t).
  { intros v -> Hok. destruct (insert w _ t) as [o t'] eqn:Hins.
    cbn in Hok. subst o. exists t'. split_and!; [done| | |].
    - replace t' with (exec (OpInsert w (occurrences w (seen ++ [w]))) t)
        by (cbn; by rewrite Hins). by constructor.
    - rewrite (insert_contents_Inv t w _ t' HI Hins), Hcont. by rewrite tally_snoc.
    - specialize (Hcap (occurrences w (seen ++ [w]))). by rewrite Hins in Hcap. }
  unfold count_word. destruct (decide (w ∈ seen)) as [Hin|Hin].
  - right. rewrite (Hget (occurrences w seen)).
    2:{ rewrite Hcont. by apply tally_elem_of. }
    destruct (Hstep (occurrences w seen + 1)%Z) as (t' & -> & Ht').
    + rewrite occurrences_snoc. by rewrite decide_True.
    + destruct (insert_outcome_Inv t w (occurrences w seen + 1) HI)
        as [(_ & Habs & _)|[Hok _]]; [|done].
      destruct Habs. rewrite Hcont, tally_keys, elem_of_reverse.
      by apply elem_of_remove_dups.
    + by exists t'.
  - rewrite Hmiss.
    2:{ rewrite Hcont, tally_keys, elem_of_reverse. by rewrite elem_of_remove_dups. }
    destruct (insert_outcome_Inv t w 1 HI) as [(Hfull & _ & Hsz)|[Hok _]].
    + left. destruct (insert w 1 t) as [o t'] eqn:Hins. cbn in Hfull. subst o.
      split_and!; [done..|].
      rewrite (size_contents_Inv t HI), Hcont, length_tally in Hsz. lia.
    + right. destruct (Hstep 1%Z) as (t' & -> & Ht'); [|done|by exists t'].
      rewrite occurrences_snoc, occurrences_absent, decide_True by done. lia.
Qed.

Lemma filter_ne_absent (l : list string) w :
  w ∉ l -> filter (fun x => x <> w) l = l.
Proof.
  induction l as [|x l IH]; [done|]. intros Hw.
  rewrite filter_cons_True.
  - f_equal. apply IH. intros Hin. apply Hw. by right.
  - intros ->. apply Hw. by left.
Qed.

Lemma count_words_spec t words seen :
  reachable t -> contents t = tally seen ->
  (length (remove_dups (seen ++ words)) <= capacity t ->
     exists t', count_words words t = Returned t' /\ reachable t'
       /\ contents t' = tally (seen ++ words) /\ capacity t' = capacity t)
  /\ (capacity t < length (remove_dups (seen ++ words)) ->
        count_words words t = Raised RuntimeError).
Proof.
  revert t seen. induction words as [|w words IH]; intros t seen Hr Hcont.
  - rewrite app_nil_r. split; [by exists t|].
    pose proof (reachable_Inv t Hr) as HI.
    pose proof (Inv_DataInv t HI) as HD. destruct (di_size_bounds t HD) as [_ Hle].
    rewrite (size_contents_Inv t HI), Hcont, length_tally in Hle. lia.
  - replace (seen ++ w :: words) with ((seen ++ [w]) ++ words)
      by (by rewrite <- app_assoc).
    cbn [count_words].
    destruct (count_word_spec t w seen Hr Hcont)
      as [(-> & Hw & Hsz)|(t' & -> & Hr' & Hcont' & Hcap)].
    + pose proof (remove_dups_app_length (seen ++ [w]) words) as Hmono.
      rewrite remove_dups_snoc, length_app in Hmono. cbn in Hmono.
      rewrite filter_ne_absent in Hmono by (by rewrite elem_of_remove_dups).
      split; [lia|done].
    + rewrite <- Hcap. by apply IH.
Qed.

Lemma init_reachable c t : __init__ c = Ok t -> reachable t /\ contents t = [].
Proof.
  intros Hinit. split; [by eapply reachable_init|].
  unfold __init__ in Hinit. case_decide; [done|]. injection Hinit as <-.
  unfold contents, recency. cbn. by destruct (Z.to_nat c).
Qed.

Lemma build_word_counts_spec words c :
  (0 < c)%Z ->
  (length (remove_dups words) <= Z.to_nat c ->
     exists t, build_word_counts words c = Returned t /\ reachable t
       /\ contents t = tally words /\ capacity t = Z.to_nat c)
  /\ (Z.to_nat c < length (remove_dups words) ->
        build_word_counts words c = Raised RuntimeError).
Proof.
  intros Hc. unfold build_word_counts.
  destruct (__init__ c) as [t0| |] eqn:Hinit;
    [|unfold __init__ in Hinit; case_decide; (lia || done)..].
  destruct (init_reachable c t0 Hinit) as [Hr Hcont].
  assert (Hcap : capacity t0 = Z.to_nat c).
  { unfold __init__ in Hinit. case_decide; [done|]. by injection Hinit as <-. }
  rewrite <- Hcap. apply (count_words_spec t0 words [] Hr Hcont).
Qed.

(** ** Further facts about the public operations *)

Lemma insert_capacity_Inv t k v : Inv t -> capacity (snd (insert k v t)) = capacity t.
Proof.
  intros HI. destruct (insert_cases t k v HI)
    as [(i & t' & Hh & Hins & _)|[(j & t' & _ & Hj & Hjo & Hp & Hins & _)
                                 |(_ & _ & _ & Hins)]].
  - destruct (insert_found t k v i HI Hh) as (t2 & Heq & Hc & _). by rewrite Heq.
  - destruct (insert_free t k v j HI Hp Hj Hjo) as (t2 & Heq & Hc & _).
    by rewrite Heq.
  - by rewrite Hins.
Qed.

Lemma remove_capacity_Inv t k : Inv t -> capacity (snd (remove k t)) = capacity t.
Proof.
  intros HI. destruct (holds_dec t k HI) as [[i Hh]|Habs].
  - destruct (remove_found t k i HI Hh) as (t2 & Heq & Hc & _). by rewrite Heq.
  - by rewrite remove_absent.
Qed.

Lemma exec_capacity_Inv t o : Inv t -> capacity (exec o t) = capacity t.
Proof.
  intros HI. destruct o; unfold exec.
  - by apply insert_capacity_Inv.
  - by rewrite get_frame.
  - by apply remove_capacity_Inv.
  - by rewrite get_last_frame.
  - by rewrite get_first_frame.
  - by rewrite items_frame.
Qed.

Lemma remove_outcome_Inv t k :
  Inv t ->
  (k ∈ (contents t).*1 /\ exists t', remove k t = (Ok tt, t')
     /\ contents t' = without k (contents t) /\ size t' = (size t - 1)%Z)
  \/ ((k ∉ (contents t).*1) /\ remove k t = (Raise (KeyError k), t)).
Proof.
  intros HI. destruct (Inv_view t HI) as (l & al & Hview & _).
  pose proof (view_contents t l al HI Hview) as Hcont.
  destruct (holds_dec t k HI) as [[i Hh]|Habs].
  - left. destruct (remove_found t k i HI Hh)
      as (t' & Hrem & _ & _ & _ & _ & Hsz & _).
    split.
    + destruct (occupied_entry t i HI (proj1 Hh)) as (k' & v' & He).
      apply list_elem_of_fmap. exists (k, v'). split; [done|]. rewrite Hcont.
      apply (view_elem_of t l al k v' HI Hview). exists i. split; [done|].
      unfold entry in He. destruct (keys t !! i); [|done].
      by destruct (vals t !! i); simplify_eq.
    + exists t'. split_and!; [done| |done]. by apply remove_contents_Inv.
  - right. split; [|by apply remove_absent].
    intros ([k' v'] & -> & Hin)%list_elem_of_fmap. rewrite Hcont in Hin.
    apply (view_elem_of t l al k' v' HI Hview) in Hin as (i & Hh & _).
    by destruct (Habs i).
Qed.

Lemma contents_keys_NoDup t : Inv t -> NoDup (contents t).*1.
Proof.
  intros HI. destruct (Inv_view t HI) as (l & al & Hview & _).
  rewrite (view_contents t l al) by done. by eapply view_keys_NoDup.
Qed.

Lemma NoDup_fst_inj (al : list (string * Z)) k v v' :
  NoDup al.*1 -> (k, v) ∈ al -> (k, v') ∈ al -> v = v'.
Proof.
  intros Hnd (n & Hn)%list_elem_of_lookup_1 (m & Hm)%list_elem_of_lookup_1.
  assert (n = m) as ->.
  { eapply NoDup_lookup; [done|..]; rewrite list_lookup_fmap.
    - by rewrite Hn.
    - by rewrite Hm. }
  congruence.
Qed.

Lemma get_outcome_Inv t k :
  Inv t ->
  (exists v, (k, v) ∈ contents t /\ get k t = (Ok (Some v), t))
  \/ ((k ∉ (contents t).*1) /\ get k t = (Raise (KeyError k), t)).
Proof.
  intros HI. destruct (get_contents_Inv t k HI) as [Hget Hmiss].
  destruct (decide (k ∈ (contents t).*1)) as [Hin|Hin].
  - left. apply list_elem_of_fmap in Hin as ([k' v] & -> & Hin).
    exists v. split; [done|]. by apply Hget.
  - right. split; [done|]. by apply Hmiss.
Qed.

Lemma get_same_Inv t t' k :
  Inv t -> Inv t' ->
  (forall v, (k, v) ∈ contents t <-> (k, v) ∈ contents t') ->
  fst (get k t) = fst (get k t').
Proof.
  intros HI HI' Hsame.
  destruct (get_outcome_Inv t k HI) as [(v & Hin & ->)|[Hout ->]].
  - destruct (get_contents_Inv t' k HI') as [Hget _].
    by rewrite (Hget v) by (by apply Hsame).
  - destruct (get_contents_Inv t' k HI') as [_ Hmiss]. rewrite Hmiss; [done|].
    intros ([k' v] & -> & Hin)%list_elem_of_fmap.
    apply Hout, list_elem_of_fmap. exists (k', v). split; [done|]. by apply Hsame.
Qed.

Lemma elem_of_without k k' v (al : list (string * Z)) :
  (k', v) ∈ without k al <-> k' <> k /\ (k', v) ∈ al.
Proof. unfold without. by rewrite list_elem_of_filter. Qed.

Lemma last_filter {A} (P : A -> Prop) `{forall x, Decision (P x)} (l : list A) x :
  last l = Some x -> P x -> last (filter P l) = Some x.
Proof.
  intros (l' & ->)%last_Some Hx.
  by rewrite filter_app, filter_cons_True, filter_nil, last_snoc.
Qed.

(** ** Further properties of the table *)

(** X1.  [get] reads the contents: on a table a program can hold, no key
    occurs twice in the contents, [get key] returns [v] exactly when
    [(key, v)] is among them, and raises [KeyError key] exactly when [key]
    is not. *)
Theorem get_reads_contents t key (Hr : reachable t) :
  NoDup (contents t).*1
  /\ (forall v, (key, v) ∈ contents t <-> fst (get key t) = Ok (Some v))
  /\ (key ∉ (contents t).*1 <-> fst (get key t) = Raise (KeyError key)).
Proof.
  pose proof (reachable_Inv t Hr) as HI.
  pose proof (contents_keys_NoDup t HI) as Hnd. split_and!; [done|..].
  - intros v. destruct (get_outcome_Inv t key HI) as [(v' & Hin & ->)|[Hout ->]]; cbn.
    + split; [|by intros [= ->]]. intros Hv. by rewrite (NoDup_fst_inj (contents t) key v v').
    + split; [|done]. intros Hin. destruct Hout.
      apply list_elem_of_fmap. by exists (key, v).
  - destruct (get_outcome_Inv t key HI) as [(v' & Hin & ->)|[Hout ->]]; cbn.
    + split; [|done]. intros Hout. destruct Hout.
      apply list_elem_of_fmap. by exists (key, v').
    + done.
Qed.

(** X2.  A successful [insert key value] puts [(key, value)] in front of
    the contents and drops the pair [key] had before; every other pair
    stays, in the order it was in. *)
Theorem insert_updates_contents t key value (Hr : reachable t)
    (Hok : fst (insert key value t) = Ok tt) :
  contents (snd (insert key value t)) = (key, value) :: without key (contents t).
Proof.
  pose proof (reachable_Inv t Hr) as HI.
  destruct (insert key value t) as [o t'] eqn:Hins. cbn in Hok. subst o.
  by apply insert_contents_Inv.
Qed.

(** X3.  [insert] raises [RuntimeError] exactly when the key is new and
    [size] has reached [capacity]; in every other case it returns. *)
Theorem insert_full_iff_size t key value (Hr : reachable t) :
  (fst (insert key value t) = Raise RuntimeError
   <-> (key ∉ (contents t).*1) /\ size t = Z.of_nat (capacity t))
  /\ (fst (insert key value t) = Ok tt
      <-> key ∈ (contents t).*1 \/ (size t < Z.of_nat (capacity t))%Z).
Proof.
  pose proof (reachable_Inv t Hr) as HI.
  destruct (insert_outcome_Inv t key value HI)
    as [(-> & Hout & Hsz)|[-> Hroom]]; split; split; try done.
  - by intros [?|?]; [|lia].
  - intros [Hout Hsz]. destruct Hroom; [done|lia].
Qed.

(** X4.  [remove key] of a key that is in the table returns, takes its
    pair out of the contents, leaves every other pair where it was and
    lowers [size] by one; for a key that is not in the table it raises
    [KeyError key] and changes nothing. *)
Theorem remove_updates_contents t key (Hr : reachable t) :
  (key ∈ (contents t).*1 ->
     fst (remove key t) = Ok tt
     /\ contents (snd (remove key t)) = without key (contents t)
     /\ size (snd (remove key t)) = (size t - 1)%Z)
  /\ (key ∉ (contents t).*1 -> remove key t = (Raise (KeyError key), t)).
Proof.
  pose proof (reachable_Inv t Hr) as HI.
  destruct (remove_outcome_Inv t key HI)
    as [(Hin & t' & -> & Hcont & Hsz)|[Hout ->]]; split; try done.
Qed.

(** X5.  [get_last] returns the first pair of the contents and
    [get_first] the last one; each raises [KeyError "empty"] exactly when
    [size] is 0; neither changes the table. *)
Theorem most_and_least_recent t (Hr : reachable t) :
  get_last t
  = (match contents t with
     | [] => Raise (KeyError "empty")
     | (k, v) :: _ => Ok (Some k, Some v)
     end, t)
  /\ get_first t
     = (match last (contents t) with
        | None => Raise (KeyError "empty")
        | Some (k, v) => Ok (Some k, Some v)
        end, t)
  /\ (fst (get_last t) = Raise (KeyError "empty") <-> size t = 0%Z)
  /\ (fst (get_first t) = Raise (KeyError "empty") <-> size t = 0%Z).
Proof.
  pose proof (reachable_Inv t Hr) as HI.
  rewrite get_last_contents_Inv, get_first_contents_Inv by done.
  rewrite (size_contents_Inv t HI). split_and!; [done..| |]; cbn [fst].
  - by destruct (contents t) as [|[k v] al].
  - destruct (contents t) as [|[k v] al] using rev_ind; [done|].
    rewrite last_snoc, length_app. cbn. split; [done|lia].
Qed.

(** X6.  [items] returns, leaves the table as it is, and yields exactly
    the pairs of the contents, each once (in slot order, so as a
    permutation of the recency order); their number is [size]. *)
Theorem items_lists_contents t (Hr : reachable t) :
  exists its, items t = (Ok its, t)
    /\ its ≡ₚ (fun kv => (Some (fst kv), Some (snd kv))) <$> contents t
    /\ Z.of_nat (length its) = size t.
Proof.
  pose proof (reachable_Inv t Hr) as HI.
  destruct (items_contents_Inv t HI) as (its & Hits & Hperm).
  exists its. split_and!; [done..|].
  by rewrite Hperm, length_fmap, (size_contents_Inv t HI).
Qed.

(** X7.  The capacity is fixed at construction: no sequence of public
    operations changes it, and [size] never exceeds it. *)
Theorem capacity_never_changes t ops (Hr : reachable t) :
  capacity (run_ops ops t) = capacity t
  /\ (0 <= size (run_ops ops t) <= Z.of_nat (capacity t))%Z.
Proof.
  assert (Hcap : capacity (run_ops ops t) = capacity t).
  { revert t Hr. induction ops as [|o ops IH]; intros t Hr; [done|].
    change (run_ops (o :: ops) t) with (run_ops ops (exec o t)).
    rewrite IH by (by constructor). by apply exec_capacity_Inv, reachable_Inv. }
  split; [done|]. rewrite <- Hcap.
  by apply Inv_DataInv, reachable_Inv, reachable_run_ops.
Qed.

(** X8.  [__init__] raises [ValueError] for a capacity that is not
    positive; otherwise it returns an empty table of that capacity: [size]
    is 0, every [get] raises [KeyError], [get_last] and [get_first] raise
    [KeyError "empty"] and [items] yields nothing. *)
Theorem init_empty_table c :
  ((c <= 0)%Z -> __init__ c = Raise ValueError)
  /\ ((0 < c)%Z ->
        exists t, __init__ c = Ok t
          /\ capacity t = Z.to_nat c /\ size t = 0%Z /\ contents t = []
          /\ (forall key, get key t = (Raise (KeyError key), t))
          /\ get_last t = (Raise (KeyError "empty"), t)
          /\ get_first t = (Raise (KeyError "empty"), t)
          /\ items t = (Ok [], t)).
Proof.
  split.
  - intros Hc. unfold __init__. by rewrite decide_True.
  - intros Hc. destruct (__init__ c) as [t| |] eqn:Hinit;
      [|unfold __init__ in Hinit; case_decide; (lia || done)..].
    destruct (init_reachable c t Hinit) as [Hr Hcont].
    pose proof (reachable_Inv t Hr) as HI.
    exists t. split_and!; [done| |by rewrite (size_contents_Inv t HI), Hcont|done|..].
    + unfold __init__ in Hinit. case_decide; [done|]. by injection Hinit as <-.
    + intros key. destruct (get_contents_Inv t key HI) as [_ Hmiss].
      apply Hmiss. rewrite Hcont. by intros ?%elem_of_nil.
    + by rewrite get_last_contents_Inv, Hcont.
    + by rewrite get_first_contents_Inv, Hcont.
    + destruct (items_contents_Inv t HI) as (its & -> & Hperm).
      rewrite Hcont in Hperm. by apply Permutation_nil_r in Hperm as ->.
Qed.

(** X9.  [insert] and [remove] of one key leave every other key alone:
    a [get] of a different key gives the same answer after as before. *)
Theorem other_keys_untouched t key key' value (Hr : reachable t)
    (Hne : key' <> key) :
  (fst (insert key value t) = Ok tt ->
     fst (get key' (snd (insert key value t))) = fst (get key' t))
  /\ fst (get key' (snd (remove key t))) = fst (get key' t).
Proof.
  pose proof (reachable_Inv t Hr) as HI. split.
  - intros Hok. destruct (insert key value t) as [o t'] eqn:Hins.
    cbn in Hok. subst o. cbn [snd].
    pose proof (Inv_insert t key value HI) as HI'. rewrite Hins in HI'.
    apply get_same_Inv; [done..|]. intros v.
    rewrite (insert_contents_Inv t key value t' HI Hins), elem_of_cons.
    rewrite elem_of_without. split.
    + intros [[= ? ?]|[_ ?]]; done.
    + intros Hin. right. by split.
  - destruct (remove_outcome_Inv t key HI)
      as [(Hin & t' & Hrem & Hcont & _)|[Hout ->]]; [|done].
    pose proof (Inv_remove t key HI) as HI'. rewrite Hrem in *. cbn [snd] in *.
    apply get_same_Inv; [done..|]. intros v.
    rewrite Hcont, elem_of_without. tauto.
Qed.

(** X10.  [remove] is not idempotent: once [remove key] has returned,
    [get key] and a second [remove key] both raise [KeyError key], the
    second [remove] changing nothing. *)
Theorem remove_then_missing t key (Hr : reachable t)
    (Hok : fst (remove key t) = Ok tt) :
  fst (get key (snd (remove key t))) = Raise (KeyError key)
  /\ remove key (snd (remove key t)) = (Raise (KeyError key), snd (remove key t)).
Proof.
  pose proof (reachable_Inv t Hr) as HI.
  pose proof (Inv_remove t key HI) as HI'.
  destruct (remove_outcome_Inv t key HI)
    as [(Hin & t' & Hrem & Hcont & _)|[Hout Hrem]]; rewrite Hrem in *;
    cbn [fst snd] in *; [|done].
  assert (Hgone : key ∉ (contents t').*1).
  { intros ([k v] & -> & Hkv)%list_elem_of_fmap. rewrite Hcont in Hkv.
    by apply elem_of_without in Hkv as [? _]. }
  split.
  - destruct (get_contents_Inv t' key HI') as [_ Hmiss]. by rewrite Hmiss.
  - destruct (remove_outcome_Inv t' key HI') as [[? _]|[_ ?]]; done.
Qed.

(** X11.  A removal makes room: after [remove key] has returned, the next
    [insert], of whatever key, returns, even if the table was full. *)
Theorem remove_makes_room t key key2 value2 (Hr : reachable t)
    (Hok : fst (remove key t) = Ok tt) :
  fst (insert key2 value2 (snd (remove key t))) = Ok tt.
Proof.
  pose proof (reachable_Inv t Hr) as HI.
  pose proof (Inv_remove t key HI) as HI'.
  pose proof (remove_capacity_Inv t key HI) as Hcap.
  destruct (di_size_bounds t (Inv_DataInv t HI)) as [_ Hle].
  destruct (remove_outcome_Inv t key HI)
    as [(Hin & t' & Hrem & _ & Hsz)|[Hout Hrem]]; rewrite Hrem in *;
    cbn [fst snd] in *; [|done].
  destruct (insert_outcome_Inv t' key2 value2 HI') as [(_ & _ & Hfull)|[Hins _]];
    [lia|done].
Qed.

(** X12.  Touching a key other than the least recent one leaves
    [get_first] as it was. *)
Theorem get_first_stable t key value k0 v0 (Hr : reachable t)
    (Hfirst : fst (get_first t) = Ok (Some k0, Some v0)) (Hne : key <> k0)
    (Hok : fst (insert key value t) = Ok tt) :
  fst (get_first (snd (insert key value t))) = Ok (Some k0, Some v0).
Proof.
  pose proof (reachable_Inv t Hr) as HI.
  pose proof (Inv_insert t key value HI) as HI'.
  destruct (insert key value t) as [o t'] eqn:Hins. cbn in Hok. subst o.
  cbn [snd] in *.
  rewrite get_first_contents_Inv in Hfirst |- * by done. cbn [fst] in *.
  rewrite (insert_contents_Inv t key value t' HI Hins).
  destruct (last (contents t)) as [[k v]|] eqn:Hlast; [|done].
  injection Hfirst as -> ->.
  assert (Hl : last (without key (contents t)) = Some (k0, v0)).
  { apply last_filter; [done|]. cbn. congruence. }
  rewrite last_cons, Hl. done.
Qed.

(** ** Properties of the word-count driver *)

Lemma last_remove_dups (l : list string) : last (remove_dups l) = last l.
Proof.
  destruct l as [|x l] using rev_ind; [done|].
  by rewrite remove_dups_snoc, !last_snoc.
Qed.

Lemma build_word_counts_returned words c t :
  build_word_counts words c = Returned t ->
  reachable t /\ contents t = tally words /\ capacity t = Z.to_nat c
  /\ (0 < c)%Z /\ length (remove_dups words) <= Z.to_nat c.
Proof.
  intros Hb. destruct (decide (0 < c)%Z) as [Hc|Hc].
  - destruct (build_word_counts_spec words c Hc) as [Hfit Hfull].
    destruct (decide (length (remove_dups words) <= Z.to_nat c)) as [Hle|Hgt].
    + destruct (Hfit Hle) as (t' & Ht' & Hrest). rewrite Hb in Ht'.
      injection Ht' as <-. by destruct Hrest as (? & ? & ?).
    + rewrite Hfull in Hb by lia. done.
  - unfold build_word_counts, __init__ in Hb. by rewrite decide_True in Hb by lia.
Qed.

(** X13.  With a positive capacity that is at least the number of distinct
    words, [build_word_counts] returns a table, one a program could have
    built through the public operations, whose contents are the word
    counts of the text: each distinct word once, with its number of
    occurrences, the most recently seen word first. *)
Theorem build_word_counts_tally words c (Hc : (0 < c)%Z)
    (Hfit : length (remove_dups words) <= Z.to_nat c) :
  exists t, build_word_counts words c = Returned t
    /\ reachable t /\ contents t = tally words /\ capacity t = Z.to_nat c.
Proof. by apply build_word_counts_spec. Qed.

(** X14.  In the table [build_word_counts] returns, [get w] is the number
    of occurrences of [w] in the text for a word of the text and raises
    [KeyError w] for any other string; [size] is the number of distinct
    words; and [get_last] is the last word of the text with its count. *)
Theorem build_word_counts_lookup words c t
    (Hb : build_word_counts words c = Returned t) :
  (forall w,
     fst (get w t)
     = if decide (w ∈ words) then Ok (Some (occurrences w words))
       else Raise (KeyError w))
  /\ size t = Z.of_nat (length (remove_dups words))
  /\ fst (get_last t)
     = match last words with
       | Some w => Ok (Some w, Some (occurrences w words))
       | None => Raise (KeyError "empty")
       end.
Proof.
  destruct (build_word_counts_returned words c t Hb) as (Hr & Hcont & _).
  pose proof (reachable_Inv t Hr) as HI. split_and!.
  - intros w. destruct (get_contents_Inv t w HI) as [Hget Hmiss].
    case_decide as Hw.
    + rewrite (Hget (occurrences w words)); [done|].
      rewrite Hcont. by apply tally_elem_of.
    + rewrite Hmiss; [done|].
      by rewrite Hcont, tally_keys, elem_of_reverse, elem_of_remove_dups.
  - by rewrite (size_contents_Inv t HI), Hcont, length_tally.
  - rewrite get_last_contents_Inv, Hcont by done. cbn [fst]. unfold tally.
    pose proof (last_remove_dups words) as Hlast.
    rewrite <- head_reverse in Hlast.
    destruct (reverse (remove_dups words)) as [|w l]; cbn in Hlast |- *;
      by rewrite <- Hlast.
Qed.

(** X15.  [build_word_counts] raises [ValueError] for a capacity that is
    not positive, and, for a positive one, [RuntimeError] exactly when the
    text has more distinct words than the capacity; in every other case
    it returns: it never raises anything else and never hangs. *)
Theorem build_word_counts_raises words c :
  ((c <= 0)%Z -> build_word_counts words c = Raised ValueError)
  /\ ((0 < c)%Z ->
        (build_word_counts words c = Raised RuntimeError
         <-> Z.to_nat c < length (remove_dups words))
        /\ ((exists t, build_word_counts words c = Returned t)
            <-> length (remove_dups words) <= Z.to_nat c)).
Proof.
  split.
  - intros Hc. unfold build_word_counts, __init__. by rewrite decide_True.
  - intros Hc. destruct (build_word_counts_spec words c Hc) as [Hfit Hfull].
    destruct (decide (length (remove_dups words) <= Z.to_nat c)) as [Hle|Hgt].
    + destruct (Hfit Hle) as (t & Ht & _). rewrite Ht.
      split; split; [done|lia|done|by exists t].
    + rewrite Hfull by lia. split; split; [lia|done|by intros [t ?]|lia].
Qed.

(** ** The tokenizer *)

Lemma string_app_cons c s1 s2 : String c s1 +:+ s2 = String c (s1 +:+ s2).
Proof. done. Qed.

Lemma string_app_nil_l s : "" +:+ s = s.
Proof. done. Qed.

Lemma string_length_app s1 s2 :
  String.length (s1 +:+ s2) = String.length s1 + String.length s2.
Proof.
  induction s1 as [|c s1 IH]; [done|]. rewrite string_app_cons. cbn. by rewrite IH.
Qed.

Lemma string_app_assoc s1 s2 s3 : (s1 +:+ s2) +:+ s3 = s1 +:+ s2 +:+ s3.
Proof.
  induction s1 as [|c s1 IH]; [done|]. by rewrite !string_app_cons, IH.
Qed.

Lemma string_app_nil_r s : s +:+ "" = s.
Proof. induction s as [|c s IH]; [done|]. by rewrite string_app_cons, IH. Qed.

Lemma is_letter_lower_char c : is_letter (lower_char c) = is_letter c.
Proof. by destruct c as [[] [] [] [] [] [] [] []]. Qed.

Lemma lower_char_idemp c : lower_char (lower_char c) = lower_char c.
Proof. by destruct c as [[] [] [] [] [] [] [] []]. Qed.

Lemma lower_idemp s : lower (lower s) = lower s.
Proof. induction s as [|c s IH]; [done|]. cbn. by rewrite lower_char_idemp, IH. Qed.

Lemma lower_app s1 s2 : lower (s1 +:+ s2) = lower s1 +:+ lower s2.
Proof.
  induction s1 as [|c s1 IH]; [done|].
  rewrite string_app_cons. cbn [lower]. by rewrite string_app_cons, IH.
Qed.

Lemma all_letters_lower s : all_letters (lower s) = all_letters s.
Proof.
  induction s as [|c s IH]; [done|]. cbn. by rewrite is_letter_lower_char, IH.
Qed.

Lemma letter_run_lower s : letter_run s -> letter_run (lower s).
Proof.
  intros [Hne Hall]. split; [by destruct s|]. by rewrite all_letters_lower.
Qed.

Lemma word_form_lower s : word_form s -> word_form (lower s).
Proof.
  intros [Hrun|(w1 & w2 & -> & H1 & H2)].
  - left. by apply letter_run_lower.
  - right. exists (lower w1), (lower w2). rewrite lower_app. cbn.
    split_and!; [done|by apply letter_run_lower..].
Qed.

Lemma letters_spec s w r :
  letters s = (w, r) ->
  s = w +:+ r /\ all_letters w = true
  /\ match r with String c _ => is_letter c = false | EmptyString => True end.
Proof.
  revert w r. induction s as [|c s IH]; intros w r; cbn.
  - by intros [= <- <-].
  - destruct (is_letter c) eqn:Hc.
    + destruct (letters s) as [w' r'] eqn:Hl. intros [= <- <-].
      destruct (IH w' r' eq_refl) as (-> & Hw & Hr). cbn. by rewrite Hc.
    + by intros [= <- <-].
Qed.

Lemma letters_run w r :
  all_letters w = true ->
  match r with String c _ => is_letter c = false | EmptyString => True end ->
  letters (w +:+ r) = (w, r).
Proof.
  intros Hw Hr. induction w as [|c w IH]; cbn in Hw.
  - rewrite string_app_nil_l. destruct r as [|c r]; [done|]. cbn. by rewrite Hr.
  - apply andb_prop in Hw as [Hc Hw]. rewrite string_app_cons. cbn [letters].
    by rewrite Hc, IH.
Qed.

Lemma letters_sep a sep b :
  is_letter sep = false ->
  letters (a +:+ String sep b)
  = (fst (letters a), snd (letters a) +:+ String sep b).
Proof.
  intros Hsep. destruct (letters a) as [w r] eqn:Hl.
  destruct (letters_spec a w r Hl) as (-> & Hw & Hr). cbn [fst snd].
  rewrite string_app_assoc. apply letters_run; [done|].
  destruct r; cbn; done.
Qed.

Lemma match_word_spec s m r :
  match_word s = Some (m, r) -> s = m +:+ r /\ word_form m.
Proof.
  unfold match_word. destruct (letters s) as [w r0] eqn:Hl.
  destruct (letters_spec s w r0 Hl) as (-> & Hw & _).
  destruct w as [|c w]; [done|].
  assert (Hrun : letter_run (String c w)) by done.
  destruct r0 as [|c0 r']; [intros [= <- <-]; split; [done|by left]|].
  destruct (Ascii.eqb c0 "'") eqn:He; [|intros [= <- <-]; split; [done|by left]].
  apply Ascii.eqb_eq in He as ->.
  destruct (letters r') as [w2 r2] eqn:Hl2.
  destruct (letters_spec r' w2 r2 Hl2) as (-> & Hw2 & _).
  destruct w2 as [|c2 w2]; intros [= <- <-].
  - split; [done|by left].
  - split.
    + by rewrite string_app_assoc, (string_app_cons "'").
    + right. by exists (String c w), (String c2 w2).
Qed.

Lemma word_form_nonempty m : word_form m -> m <> "".
Proof.
  intros [[Hne _]|(w1 & w2 & -> & [Hne _] & _)]; [done|]. by destruct w1.
Qed.

Lemma match_word_length s m r :
  match_word s = Some (m, r) -> String.length r < String.length s.
Proof.
  intros [-> Hm%word_form_nonempty]%match_word_spec.
  rewrite string_length_app. destruct m; [done|]. cbn. lia.
Qed.

Lemma match_word_full w : word_form w -> match_word w = Some (w, "").
Proof.
  unfold match_word. intros [[Hne Hall]|(w1 & w2 & -> & [Hne1 H1] & [Hne2 H2])].
  - rewrite <- (string_app_nil_r w) at 1. rewrite letters_run by done.
    by destruct w.
  - rewrite letters_run by done. destruct w1 as [|c1 w1]; [done|]. cbn.
    rewrite <- (string_app_nil_r w2) at 1. rewrite letters_run by done.
    by destruct w2.
Qed.

Lemma match_word_sep a sep b :
  is_letter sep = false -> sep <> "'"%char ->
  match_word (a +:+ String sep b)
  = (fun mr => (fst mr, snd mr +:+ String sep b)) <$> match_word a.
Proof.
  intros Hsep Hne. unfold match_word. rewrite letters_sep by done.
  destruct (letters a) as [w r0]. cbn [fst snd].
  destruct w as [|c w]; [done|].
  destruct r0 as [|c0 r'].
  - rewrite string_app_nil_l. by rewrite (proj2 (Ascii.eqb_neq sep "'")).
  - rewrite string_app_cons. destruct (Ascii.eqb c0 "'"); [|done].
    rewrite letters_sep by done. destruct (letters r') as [w2 r2]. cbn.
    by destruct w2.
Qed.

Lemma finditer_nil n : finditer n "" = [].
Proof. by destruct n. Qed.

Lemma finditer_fuel n1 n2 s :
  String.length s <= n1 -> String.length s <= n2 -> finditer n1 s = finditer n2 s.
Proof.
  revert n2 s. induction n1 as [|n1 IH]; intros n2 s H1 H2.
  - destruct s; [|cbn in H1; lia]. by rewrite !finditer_nil.
  - destruct s as [|c s]; [by rewrite !finditer_nil|].
    destruct n2 as [|n2]; [cbn in H2; lia|]. cbn [finditer].
    destruct (match_word (String c s)) as [[m r]|] eqn:Hm.
    + apply match_word_length in Hm. cbn in *. f_equal. apply IH; lia.
    + cbn in *. apply IH; lia.
Qed.

Lemma finditer_word_form n s m : m ∈ finditer n s -> word_form m.
Proof.
  revert s. induction n as [|n IH]; intros s; [by intros ?%elem_of_nil|].
  destruct s as [|c s]; [by intros ?%elem_of_nil|]. cbn [finditer].
  destruct (match_word (String c s)) as [[m' r]|] eqn:Hm; [|apply IH].
  intros [->|Hin]%elem_of_cons; [|by eapply IH].
  by apply match_word_spec in Hm as [_ ?].
Qed.

Lemma finditer_sep n na nb a sep b :
  is_letter sep = false -> sep <> "'"%char ->
  String.length (a +:+ String sep b) <= n ->
  String.length a <= na -> String.length b <= nb ->
  finditer n (a +:+ String sep b) = finditer na a ++ finditer nb b.
Proof.
  intros Hsep Hne. revert na a.
  induction n as [|n IH]; intros na a Hn Hna Hnb;
    rewrite string_length_app in Hn; cbn in Hn; [lia|].
  destruct a as [|c a].
  - rewrite finditer_nil. cbn [String.append app finditer].
    pose proof (match_word_sep "" sep b Hsep Hne) as Hm. cbn in Hm. rewrite Hm.
    apply finditer_fuel; cbn in *; lia.
  - destruct na as [|na]; [cbn in Hna; lia|].
    change (String c a +:+ String sep b) with (String c (a +:+ String sep b)).
    cbn [finditer].
    change (String c (a +:+ String sep b)) with (String c a +:+ String sep b).
    rewrite match_word_sep by done.
    destruct (match_word (String c a)) as [[m r]|] eqn:Hm; cbn.
    + apply match_word_length in Hm. cbn in *. f_equal.
      apply IH; [rewrite string_length_app; cbn; lia|lia..].
    + cbn in *. apply IH; [rewrite string_length_app; cbn; lia|lia..].
Qed.

Lemma tokenize_word w : word_form w -> tokenize w = [lower w].
Proof.
  intros Hw. unfold tokenize. pose proof (word_form_nonempty w Hw) as Hne.
  destruct w as [|c w]; [done|]. cbn [String.length finditer].
  rewrite (match_word_full _ Hw). by rewrite finditer_nil.
Qed.

Lemma concat_cons_cons x y (l : list string) :
  String.concat " " (x :: y :: l) = x +:+ String " " (String.concat " " (y :: l)).
Proof. done. Qed.

(** X16.  Every token [tokenize] yields is a word in lower case: letters,
    or letters, one apostrophe, letters; never empty, never with a digit
    or any other character, never with a capital. *)
Theorem tokenize_word_forms text tok (Hin : tok ∈ tokenize text) :
  word_form tok /\ lower tok = tok.
Proof.
  unfold tokenize in Hin. apply list_elem_of_fmap in Hin as (m & -> & Hm).
  apply finditer_word_form in Hm. split; [by apply word_form_lower|].
  apply lower_idemp.
Qed.

(** X17.  A character that is neither a letter nor an apostrophe separates
    words: the tokens of a text with such a character in it are the tokens
    of what comes before it followed by the tokens of what comes after. *)
Theorem tokenize_separator a sep b
    (Hsep : is_letter sep = false) (Hne : sep <> "'"%char) :
  tokenize (a +:+ String sep b) = tokenize a ++ tokenize b.
Proof.
  unfold tokenize. rewrite <- fmap_app. f_equal. by apply finditer_sep.
Qed.

(** X18.  Round trip: words joined with single spaces tokenize back to
    the same words, in lower case. *)
Theorem tokenize_join words (Hwords : Forall word_form words) :
  tokenize (String.concat " " words) = lower <$> words.
Proof.
  induction Hwords as [|x l Hx Hl IH]; [done|].
  destruct l as [|y l]; [by apply tokenize_word|].
  rewrite concat_cons_cons. unfold tokenize at 1.
  rewrite (finditer_sep _ (String.length x)
             (String.length (String.concat " " (y :: l)))) by done.
  rewrite fmap_app. fold (tokenize x).
  fold (tokenize (String.concat " " (y :: l))).
  by rewrite IH, tokenize_word.
Qed.

(** X19.  A table built from the tokens of a text is keyed by lower-case
    words only: every key is one, and [get] of any string with a capital
    letter in it raises [KeyError]. *)
Theorem word_table_keys_lower text c t
    (Hb : build_word_counts (tokenize text) c = Returned t) :
  Forall (fun k => word_form k /\ lower k = k) (contents t).*1
  /\ (forall w, lower w <> w -> fst (get w t) = Raise (KeyError w)).
Proof.
  destruct (build_word_counts_returned _ c t Hb) as (Hr & Hcont & _).
  pose proof (reachable_Inv t Hr) as HI.
  assert (Hkeys : forall k, k ∈ (contents t).*1 -> k ∈ tokenize text).
  { intros k. by rewrite Hcont, tally_keys, elem_of_reverse, elem_of_remove_dups. }
  split.
  - apply Forall_forall. intros k Hk%Hkeys.
    unfold tokenize in Hk. apply list_elem_of_fmap in Hk as (m & -> & Hm).
    apply finditer_word_form in Hm. split; [by apply word_form_lower|].
    apply lower_idemp.
  - intros w Hw. destruct (get_contents_Inv t w HI) as [_ Hmiss].
    rewrite Hmiss; [done|]. intros Hk%Hkeys. apply Hw.
    unfold tokenize in Hk. apply list_elem_of_fmap in Hk as (m & -> & _).
    apply lower_idemp.
Qed.

(** ** The private helpers *)

(** X20.  [_move_to_head i], for a slot [i] of the recency list of a
    table a program can hold, returns, brings [i] to the front of the
    list, keeps the order of the other slots, and changes nothing but the
    links: keys, values, states, [size] and [capacity] stay. *)
Theorem move_to_head_recency t l1 i l2 (Hr : reachable t)
    (Hl : recency_list t (l1 ++ i :: l2)) :
  exists t', _move_to_head i t = (Ok tt, t')
    /\ recency_list t' (i :: l1 ++ l2)
    /\ keys t' = keys t /\ vals t' = vals t /\ state t' = state t
    /\ size t' = size t /\ capacity t' = capacity t.
Proof.
  pose proof (reachable_Inv t Hr) as HI.
  destruct (Inv_recency_list t _ HI Hl) as [Hnd _].
  destruct (move_recency t l1 i l2 Hl Hnd)
    as (t' & Hmove & (Hc & Hk & Hv & Hst & Hsz & _) & Hl').
  by exists t'.
Qed.

(** X21.  Probing is complete in spite of tombstones: on a table a program
    can hold, [_probe key] finds the slot of [key] whenever some slot
    holds [key], and otherwise proposes for insertion only a slot that is
    EMPTY or DELETED, or no slot at all when every slot is OCCUPIED. *)
Theorem probe_complete t key (Hr : reachable t) :
  (forall i, holds t key i -> _probe key t = (Ok (Some i, None), t))
  /\ ((forall i, ~ holds t key i) ->
        (exists j, _probe key t = (Ok (None, Some j), t) /\ j < capacity t
           /\ (state t !! j = Some EMPTY \/ state t !! j = Some DELETED))
        \/ (_probe key t = (Ok (None, None), t)
            /\ forall i, i < capacity t -> state t !! i = Some OCCUPIED)).
Proof.
  pose proof (reachable_Inv t Hr) as HI. split.
  - intros i Hh. by apply probe_present.
  - intros Habs. pose proof (probe_Inv t key HI) as Hv.
    inversion Hv as [i Hh Heq|j l1 l2 _ Hpath Hl1 Hj Heq|_ Hfull Heq].
    + by destruct (Habs i).
    + left. exists j. split_and!; [done| |done].
      apply probe_path_lt with key. rewrite Hpath. apply elem_of_app. right. by left.
    + by right.
Qed.

(** X22.  [_idx] gives a slot index within the table, whatever the sign
    and the size of the hash; with no slot at all it raises
    [ZeroDivisionError].  It never changes the table. *)
Theorem idx_in_range t key :
  (capacity t <> 0 ->
     exists i, _idx key t = (Ok i, t) /\ i < capacity t
       /\ Z.of_nat i = (Z.land (hash key) 0x7FFFFFFF mod Z.of_nat (capacity t))%Z)
  /\ (capacity t = 0 -> _idx key t = (Raise ZeroDivisionError, t)).
Proof.
  unfold _idx. split; intros Hc.
  - rewrite decide_False by done. eexists. split; [done|].
    fold (start_of t key). split; [by apply start_of_lt|]. unfold start_of.
    pose proof (Z.mod_pos_bound (Z.land (hash key) 0x7FFFFFFF)
                  (Z.of_nat (capacity t)) ltac:(lia)). lia.
  - by rewrite decide_True.
Qed.

(** X23.  On a table a program can hold the public operations fail only
    in the ways their docstrings name: [insert] returns or raises
    [RuntimeError], [get] and [remove] return or raise [KeyError] of their
    key, [get_last] and [get_first] return or raise [KeyError "empty"],
    [items] returns.  None raises [IndexError] or [ZeroDivisionError],
    none hangs. *)
Theorem public_errors_only t key value (Hr : reachable t) :
  (fst (insert key value t) = Ok tt \/ fst (insert key value t) = Raise RuntimeError)
  /\ ((exists v, fst (get key t) = Ok (Some v))
      \/ fst (get key t) = Raise (KeyError key))
  /\ (fst (remove key t) = Ok tt \/ fst (remove key t) = Raise (KeyError key))
  /\ ((exists k v, fst (get_last t) = Ok (Some k, Some v))
      \/ fst (get_last t) = Raise (KeyError "empty"))
  /\ ((exists k v, fst (get_first t) = Ok (Some k, Some v))
      \/ fst (get_first t) = Raise (KeyError "empty"))
  /\ (exists its, fst (items t) = Ok its).
Proof.
  pose proof (reachable_Inv t Hr) as HI. split_and!.
  - destruct (insert_outcome_Inv t key value HI) as [(-> & _)|[-> _]]; auto.
  - destruct (get_outcome_Inv t key HI) as [(v & _ & ->)|[_ ->]]; eauto.
  - destruct (remove_outcome_Inv t key HI) as [(_ & t' & -> & _)|[_ ->]]; auto.
  - rewrite get_last_contents_Inv by done.
    destruct (contents t) as [|[k v] al]; eauto.
  - rewrite get_first_contents_Inv by done.
    destruct (last (contents t)) as [[k v]|]; eauto.
  - destruct (items_contents_Inv t HI) as (its & -> & _). by exists its.
Qed.

End Proofs.

(** * The theorems at concrete tables *)

(** A slot is walked past because another key lives there. *)
Ltac passed_other :=
  right; split; [reflexivity|eexists; split; [reflexivity|discriminate]].

Lemma probe_linear_probing_witness :
  @_probe length_hash "y" scenario_table = (Ok (Some 2, None), scenario_table)
  /\ @_probe length_hash "x" tombstone_table = (Ok (None, Some 1), tombstone_table)
  /\ @_probe length_hash "c" full_table = (Ok (None, None), full_table).
Proof.
  split_and!.
  - destruct (@probe_linear_probing length_hash scenario_table "y"
                ltac:(by vm_compute)) as (_ & Hfound & _).
    apply (Hfound [1] 2 [3; 0]).
    + reflexivity.
    + constructor; [passed_other|constructor].
    + split; reflexivity.
  - destruct (@probe_linear_probing length_hash tombstone_table "x"
                ltac:(by vm_compute)) as (_ & _ & Hempty & _).
    apply (Hempty [1; 2] 3 [0]).
    + reflexivity.
    + constructor; [by left|]. constructor; [passed_other|constructor].
    + reflexivity.
  - destruct (@probe_linear_probing length_hash full_table "c"
                ltac:(by vm_compute)) as (_ & _ & _ & Hcycle & _).
    apply Hcycle.
    + constructor; [passed_other|]. constructor; [passed_other|constructor].
    + intros [|[|i]]; discriminate.
Defined.

Lemma probe_terminates_witness :
  fst (@probe_traced length_hash "c" full_table) = Ok ([1; 0], (None, None))
  /\ NoDup [1; 0] /\ length [1; 0] <= capacity full_table.
Proof.
  split; [reflexivity|].
  destruct (@probe_terminates length_hash full_table "c") as (_ & _ & Htrace & _).
  destruct (Htrace [1; 0] (None, None) eq_refl) as (Hnd & Hlen & _).
  by split.
Defined.

Lemma empty_table_reachable (h : StringHash) c :
  0 < c -> @reachable h (empty_table c).
Proof.
  intros Hc. apply (reachable_init (Z.of_nat c)). unfold __init__.
  rewrite decide_False by lia. by rewrite Nat2Z.id.
Qed.

Lemma scenario_table_reachable : @reachable length_hash scenario_table.
Proof.
  change (@reachable length_hash (@run_ops length_hash
    [OpInsert "x" 1; OpInsert "y" 2; OpRemove "x"; OpInsert "z" 3] (empty_table 4))).
  apply reachable_run_ops, empty_table_reachable. lia.
Qed.

Lemma abc_table_reachable : @reachable length_hash abc_table.
Proof.
  change (@reachable length_hash (@run_ops length_hash
    [OpInsert "a" 1; OpInsert "b" 2; OpInsert "c" 3] (empty_table 4))).
  apply reachable_run_ops, empty_table_reachable. lia.
Qed.

Lemma full_table_reachable : @reachable length_hash full_table.
Proof.
  change (@reachable length_hash (@run_ops length_hash
    [OpInsert "a" 1; OpInsert "b" 2] (empty_table 2))).
  apply reachable_run_ops, empty_table_reachable. lia.
Qed.

Lemma xy_table_reachable : @reachable length_hash xy_table.
Proof.
  change (@reachable length_hash (@run_ops length_hash
    [OpInsert "x" 1; OpInsert "y" 2] (empty_table 4))).
  apply reachable_run_ops, empty_table_reachable. lia.
Qed.

Lemma tombstone_table_reachable : @reachable length_hash tombstone_table.
Proof.
  change (@reachable length_hash (@run_ops length_hash
    [OpInsert "x" 1; OpInsert "y" 2; OpRemove "x"] (empty_table 4))).
  apply reachable_run_ops, empty_table_reachable. lia.
Qed.

Lemma operations_preserve_invariant_witness :
  DataInv scenario_table
  /\ DataInv (snd (@insert length_hash "w" 7 scenario_table))
  /\ DataInv (snd (@remove length_hash "y" scenario_table)).
Proof.
  destruct (@operations_preserve_invariant length_hash scenario_table
              scenario_table_reachable) as (_ & H1 & H2 & _ & H3 & _).
  split_and!; [exact H1|exact (H2 "w" 7%Z)|exact (H3 "y")].
Defined.

Lemma insert_table_full_witness :
  fst (@insert length_hash "c" 3 full_table) = Raise RuntimeError
  /\ snd (@insert length_hash "c" 3 full_table) = full_table.
Proof.
  destruct (@insert_table_full length_hash full_table "c" 3 full_table_reachable)
    as (Hiff & _ & Hsame).
  pose proof (proj2 Hiff eq_refl) as Hfull. split; [exact Hfull|exact (Hsame Hfull)].
Defined.

Lemma insert_get_round_trip_witness :
  fst (@get length_hash "z" (snd (@insert length_hash "z" 3 tombstone_table)))
  = Ok (Some 3%Z).
Proof.
  apply (@insert_get_round_trip length_hash tombstone_table "z" 3
           tombstone_table_reachable).
  vm_compute. discriminate.
Defined.

Lemma insert_most_recent_witness :
  fst (get_last (snd (@insert length_hash "a" 5 full_table)))
  = Ok (Some "a", Some 5%Z).
Proof.
  apply (@insert_most_recent length_hash full_table "a" 5 full_table_reachable).
  vm_compute. reflexivity.
Defined.

Lemma remove_recency_order_witness :
  fst (get_last (snd (@remove length_hash "c" abc_table))) = Ok (Some "b", Some 2%Z)
  /\ recency_list (snd (@remove length_hash "b" abc_table)) [3; 1].
Proof.
  assert (Hl : recency_list abc_table [3; 2; 1]) by (repeat split).
  split.
  - destruct (@remove_recency_order length_hash abc_table "c" 3 [3; 2; 1]
                abc_table_reachable Hl ltac:(by split)) as (_ & Hhead & _).
    destruct (Hhead 2 [1] eq_refl) as (kj & vj & He & Hlast).
    vm_compute in He. injection He as <- <-. exact Hlast.
  - destruct (@remove_recency_order length_hash abc_table "b" 2 [3; 2; 1]
                abc_table_reachable Hl ltac:(by split)) as (_ & _ & Hmid).
    exact (proj1 (Hmid [3] [1] eq_refl)).
Defined.

Lemma stale_slot_safety_witness :
  holds (snd (@insert length_hash "z" 3
                (@run_ops length_hash [OpGet "y"]
                   (snd (@remove length_hash "x" xy_table))))) "z" 1
  /\ fst (@get length_hash "x"
            (snd (@insert length_hash "z" 3
                    (@run_ops length_hash [OpGet "y"]
                       (snd (@remove length_hash "x" xy_table))))))
     = Raise (KeyError "x").
Proof.
  destruct (@stale_slot_safety length_hash xy_table "x" 1 [OpGet "y"] "z" 3
              xy_table_reachable ltac:(by split)
              ltac:(by repeat constructor) ltac:(discriminate))
    as (_ & _ & Hreuse).
  destruct (Hreuse ltac:(by vm_compute)) as (_ & Hz & Hx). by split.
Defined.

Lemma insert_present_succeeds_witness :
  fst (@insert length_hash "a" 9 full_table) = Ok tt
  /\ size (snd (@insert length_hash "a" 9 full_table)) = size full_table.
Proof.
  apply (@insert_present_succeeds length_hash full_table "a" 9 full_table_reachable).
  exists 1. split; reflexivity.
Defined.

(** * The scenarios of the specification, run on the model *)

(** Capacity 4: insert "x", insert "y", remove "x", insert "z", get "y". *)
Example scenario_runs :
  let t0 := empty_table 4 in
  let t1 := snd (@insert length_hash "x" 1 t0) in
  let t2 := snd (@insert length_hash "y" 2 t1) in
  let t3 := snd (@remove length_hash "x" t2) in
  let t4 := snd (@insert length_hash "z" 3 t3) in
  (size t1 = 1%Z /\ fst (get_last t1) = Ok (Some "x", Some 1%Z))
  /\ (fst (get_last t2) = Ok (Some "y", Some 2%Z)
      /\ fst (get_first t2) = Ok (Some "x", Some 1%Z))
  /\ (size t3 = 1%Z /\ fst (get_first t3) = Ok (Some "y", Some 2%Z))
  /\ (size t4 = 2%Z /\ fst (get_last t4) = Ok (Some "z", Some 3%Z))
  /\ (@get length_hash "y" t4 = (Ok (Some 2%Z), t4)
      /\ fst (get_last (snd (@get length_hash "y" t4))) = Ok (Some "z", Some 3%Z)).
Proof. vm_compute. by split_and!. Qed.

(** Capacity 2: two new keys fit, a third does not until one is removed. *)
Example capacity_exhaustion :
  let t2 := full_table in
  let t3 := snd (@remove length_hash "a" t2) in
  @insert length_hash "c" 3 t2 = (Raise RuntimeError, t2)
  /\ fst (@insert length_hash "c" 3 t3) = Ok tt
  /\ fst (@get length_hash "c" (snd (@insert length_hash "c" 3 t3))) = Ok (Some 3%Z).
Proof. vm_compute. by split_and!. Qed.

(** A second [remove] of the same key raises and leaves [size] alone. *)
Example remove_twice :
  let t1 := snd (@remove length_hash "x" xy_table) in
  fst (@remove length_hash "x" t1) = Raise (KeyError "x")
  /\ size (snd (@remove length_hash "x" t1)) = size t1.
Proof. vm_compute. by split. Qed.

(** [items] yields the OCCUPIED slots in slot order. *)
Example items_in_slot_order :
  fst (items scenario_table) = Ok [(Some "z", Some 3%Z); (Some "y", Some 2%Z)]
  /\ size scenario_table = 2%Z.
Proof. vm_compute. by split. Qed.

(** * The further properties at concrete tables *)

Lemma get_reads_contents_witness :
  fst (@get length_hash "y" scenario_table) = Ok (Some 2%Z).
Proof.
  apply (proj1 (proj2 (@get_reads_contents length_hash scenario_table "y"
                         scenario_table_reachable)) 2%Z).
  vm_compute. right. left.
Defined.

Lemma insert_updates_contents_witness :
  contents (snd (@insert length_hash "y" 7 scenario_table))
  = [("y", 7%Z); ("z", 3%Z)].
Proof.
  pose proof (@insert_updates_contents length_hash scenario_table "y" 7
                scenario_table_reachable eq_refl) as H.
  vm_compute in H |- *. exact H.
Defined.

Lemma insert_full_iff_size_witness :
  fst (@insert length_hash "c" 3 full_table) = Raise RuntimeError
  /\ fst (@insert length_hash "a" 3 full_table) = Ok tt.
Proof.
  destruct (@insert_full_iff_size length_hash full_table "c" 3 full_table_reachable)
    as [Hfull _].
  destruct (@insert_full_iff_size length_hash full_table "a" 3 full_table_reachable)
    as [_ Hok].
  split.
  - apply Hfull. split; [compute_done|reflexivity].
  - apply Hok. left. compute_done.
Defined.

Lemma remove_updates_contents_witness :
  contents (snd (@remove length_hash "b" abc_table)) = [("c", 3%Z); ("a", 1%Z)]
  /\ @remove length_hash "q" abc_table = (Raise (KeyError "q"), abc_table).
Proof.
  destruct (@remove_updates_contents length_hash abc_table "b" abc_table_reachable)
    as [Hin _].
  destruct (@remove_updates_contents length_hash abc_table "q" abc_table_reachable)
    as [_ Hout].
  split.
  - destruct (Hin ltac:(compute_done)) as (_ & Hcont & _).
    vm_compute in Hcont |- *. exact Hcont.
  - apply Hout. compute_done.
Defined.

Lemma most_and_least_recent_witness :
  fst (get_last abc_table) = Ok (Some "c", Some 3%Z)
  /\ fst (get_first abc_table) = Ok (Some "a", Some 1%Z).
Proof.
  destruct (@most_and_least_recent length_hash abc_table abc_table_reachable)
    as (Hlast & Hfirst & _).
  rewrite Hlast, Hfirst. by split.
Defined.

Lemma items_lists_contents_witness :
  exists its, items scenario_table = (Ok its, scenario_table)
    /\ Z.of_nat (length its) = 2%Z.
Proof.
  destruct (@items_lists_contents length_hash scenario_table scenario_table_reachable)
    as (its & Hits & _ & Hlen).
  exists its. by split.
Defined.

Lemma capacity_never_changes_witness :
  capacity (@run_ops length_hash [OpInsert "q" 1; OpRemove "y"] scenario_table) = 4.
Proof.
  apply (@capacity_never_changes length_hash scenario_table
           [OpInsert "q" 1; OpRemove "y"] scenario_table_reachable).
Defined.

Lemma init_empty_table_witness :
  __init__ 0 = Raise ValueError
  /\ exists t, __init__ 4 = Ok t /\ size t = 0%Z /\ contents t = [].
Proof.
  destruct (@init_empty_table length_hash 0) as [Hbad _].
  destruct (@init_empty_table length_hash 4) as [_ Hgood].
  split; [apply Hbad; lia|].
  destruct (Hgood ltac:(lia)) as (t & Ht & _ & Hsz & Hcont & _).
  by exists t.
Defined.

Lemma other_keys_untouched_witness :
  fst (@get length_hash "z" (snd (@insert length_hash "y" 9 scenario_table)))
  = Ok (Some 3%Z).
Proof.
  destruct (@other_keys_untouched length_hash scenario_table "y" "z" 9
              scenario_table_reachable ltac:(discriminate)) as [Hins _].
  rewrite (Hins eq_refl). reflexivity.
Defined.

Lemma remove_then_missing_witness :
  fst (@get length_hash "y" (snd (@remove length_hash "y" scenario_table)))
  = Raise (KeyError "y").
Proof.
  apply (@remove_then_missing length_hash scenario_table "y"
           scenario_table_reachable eq_refl).
Defined.

Lemma remove_makes_room_witness :
  fst (@insert length_hash "c" 3 (snd (@remove length_hash "a" full_table))) = Ok tt.
Proof.
  apply (@remove_makes_room length_hash full_table "a" "c" 3
           full_table_reachable eq_refl).
Defined.

Lemma get_first_stable_witness :
  fst (get_first (snd (@insert length_hash "c" 9 abc_table)))
  = Ok (Some "a", Some 1%Z).
Proof.
  apply (@get_first_stable length_hash abc_table "c" 9 "a" 1
           abc_table_reachable eq_refl ltac:(discriminate) eq_refl).
Defined.

Lemma build_word_counts_tally_witness :
  exists t, @build_word_counts length_hash the_cat_words 4 = Returned t
    /\ contents t = [("the", 2%Z); ("cat", 1%Z)].
Proof.
  destruct (@build_word_counts_tally length_hash the_cat_words 4
              ltac:(lia) ltac:(vm_compute; lia)) as (t & Ht & _ & Hcont & _).
  exists t. split; [exact Ht|]. rewrite Hcont. reflexivity.
Defined.

Lemma build_word_counts_lookup_witness :
  fst (@get length_hash "the" the_cat_table) = Ok (Some 2%Z)
  /\ fst (@get length_hash "dog" the_cat_table) = Raise (KeyError "dog")
  /\ size the_cat_table = 2%Z.
Proof.
  destruct (@build_word_counts_lookup length_hash the_cat_words 4 the_cat_table
              eq_refl) as (Hget & Hsz & _).
  split_and!; [rewrite (Hget "the")|rewrite (Hget "dog")|rewrite Hsz]; reflexivity.
Defined.

Lemma build_word_counts_raises_witness :
  @build_word_counts length_hash ["a"; "b"; "c"] 2 = Raised RuntimeError
  /\ @build_word_counts length_hash ["a"] 0 = Raised ValueError.
Proof.
  destruct (@build_word_counts_raises length_hash ["a"; "b"; "c"] 2) as [_ Hfull].
  destruct (@build_word_counts_raises length_hash ["a"] 0) as [Hbad _].
  split; [|apply Hbad; lia].
  apply (Hfull ltac:(lia)). vm_compute. lia.
Defined.

Lemma tokenize_word_forms_witness :
  word_form "o'clock" /\ lower "o'clock" = "o'clock".
Proof.
  apply (tokenize_word_forms "It's 9 O'Clock").
  vm_compute. right. left.
Defined.

Lemma tokenize_separator_witness :
  tokenize "stop-me now" = ["stop"] ++ ["me"; "now"].
Proof.
  apply (tokenize_separator "stop" "-" "me now" eq_refl). discriminate.
Defined.

Lemma tokenize_join_witness :
  tokenize (String.concat " " ["Don't"; "Stop"]) = ["don't"; "stop"].
Proof.
  apply (tokenize_join ["Don't"; "Stop"]).
  constructor; [|constructor; [|constructor]].
  - right. exists "Don", "t". by repeat split.
  - left. by split.
Defined.

Lemma word_table_keys_lower_witness :
  fst (@get length_hash "The" the_cat_table) = Raise (KeyError "The").
Proof.
  apply (@word_table_keys_lower length_hash "The cat; the" 4 the_cat_table eq_refl).
  discriminate.
Defined.

Lemma move_to_head_recency_witness :
  exists t', @_move_to_head 1 abc_table = (Ok tt, t') /\ recency_list t' [1; 3; 2].
Proof.
  destruct (@move_to_head_recency length_hash abc_table [3; 2] 1 []
              abc_table_reachable ltac:(by repeat split))
    as (t' & Hmove & Hl & _).
  by exists t'.
Defined.

Lemma probe_complete_witness :
  @_probe length_hash "y" scenario_table = (Ok (Some 2, None), scenario_table).
Proof.
  apply (@probe_complete length_hash scenario_table "y" scenario_table_reachable).
  by split.
Defined.

Lemma idx_in_range_witness :
  exists i, @_idx length_hash "y" scenario_table = (Ok i, scenario_table) /\ i < 4.
Proof.
  destruct (@idx_in_range length_hash scenario_table "y") as [Hok _].
  destruct (Hok ltac:(discriminate)) as (i & Hi & Hlt & _). by exists i.
Defined.

Lemma public_errors_only_witness :
  fst (@insert length_hash "c" 3 full_table) = Ok tt
  \/ fst (@insert length_hash "c" 3 full_table) = Raise RuntimeError.
Proof.
  apply (@public_errors_only length_hash full_table "c" 3 full_table_reachable).
Defined.
